(** * ca-injector: admission patch generation and compliance reconciliation

    A shallow embedding of [main.go] of AbsaOSS/ca-injector.  The program has
    two pieces of logic, both written inline in [main]:

    - the [/pods] admission handler (lines 66-171), which decides whether a
      pod is mutated and builds the JSON-Patch operation list;
    - the reconciler goroutine (lines 178-246), which sweeps all pods,
      records an event per pod and deletes annotated pods that lack the
      injected secret volume.

    Go values are modelled as follows.  A slice is [option (list A)], so that
    the nil slice ([None]) and the empty non-nil slice ([Some []]) are
    distinct, as the source compares slices with [nil] in some places and
    uses [len] in others.  A [map[string]string] is a [gmap string string]
    whose lookup yields the empty string on a missing key.  The untyped
    patch values ([interface{}], [m], [[]interface{}]) are a small tree type.
    Loop indices are [nat]: a [range] index is bounded by the slice length.
    Effects (sleeping, logging, counter increments, calls to the cluster API)
    are recorded in order in a history, threaded by a state monad that also
    carries process exit. *)

From stdpp Require Import gmap strings list pretty.

#[local] Set Warnings "-register-all".

(** ** Go slices and maps *)

Definition slice (A : Type) : Type := option (list A).

(** [len s]; the length of the nil slice is 0. *)
Definition len {A} (s : slice A) : nat :=
  match s with
  | None => 0
  | Some l => length l
  end.

(** The elements a [range] loop visits; none for the nil slice. *)
Definition elems {A} (s : slice A) : list A :=
  match s with
  | None => []
  | Some l => l
  end.

(** [m[k]] on a [map[string]string]: the zero value on a missing key. *)
Definition index (m : gmap string string) (k : string) : string :=
  match m !! k with
  | Some v => v
  | None => ""
  end.

(** ** The parts of the Kubernetes API types that [main.go] reads *)

Record EnvVar := {
  env_Name : string;
  env_Value : string
}.

Record VolumeMount := {
  vm_Name : string;
  vm_MountPath : string;
  vm_ReadOnly : bool
}.

Record SecretVolumeSource := {
  SecretName : string
}.

(** [vol_Secret] is the pointer field [Volume.Secret]; [None] is [nil]. *)
Record Volume := {
  vol_Name : string;
  vol_Secret : option SecretVolumeSource
}.

Record Container := {
  ctr_Name : string;
  ctr_Env : slice EnvVar;
  ctr_VolumeMounts : slice VolumeMount
}.

Record OwnerReference := {
  own_APIVersion : string;
  own_Kind : string;
  own_Name : string;
  own_UID : string
}.

Record Pod := {
  pod_Kind : string;
  pod_APIVersion : string;
  pod_Name : string;
  pod_Namespace : string;
  pod_UID : string;
  pod_ResourceVersion : string;
  pod_Annotations : gmap string string;
  pod_OwnerReferences : slice OwnerReference;
  pod_Volumes : slice Volume;
  pod_Containers : slice Container
}.

Record ObjectReference := {
  or_Kind : string;
  or_Namespace : string;
  or_Name : string;
  or_UID : string;
  or_APIVersion : string;
  or_ResourceVersion : string
}.

Record Event := {
  InvolvedObject : ObjectReference;
  Reason : string;
  Message : string
}.

#[global] Instance ObjectReference_eq_dec : EqDecision ObjectReference.
Proof. solve_decision. Defined.

#[global] Instance Event_eq_dec : EqDecision Event.
Proof. solve_decision. Defined.

(** ** Constants (lines 38-41) *)

Definition label : string := "microcumul.us/injectssl".
Definition volumeName : string := "microcumulus-injected-ssl".

(** ** Patch operations (lines 43-48) *)

(** The values stored in [p.Value]: [[]interface{}{...}], the map type [m],
    strings and booleans.  A Go map is unordered, hence [gmap]. *)
Inductive value : Type :=
  | VArr (l : list value)
  | VMap (kv : gmap string value)
  | VStr (s : string)
  | VBool (b : bool).

Record p := {
  Op : string;
  Path : string;
  Value : value
}.

(** [fmt.Sprintf] with one [%d] verb between two literal pieces. *)
Definition Sprintf_d (pre : string) (i : nat) (post : string) : string :=
  pre +:+ pretty i +:+ post.

(** The double-quote character. *)
Definition dquote : string := String (Ascii.ascii_of_nat 34) "".

(** The body of [strconv.Quote] on a name: the quote and the backslash are
    escaped.  The other escapes of [%q] concern control and non-ASCII
    characters, which a Kubernetes object name cannot hold. *)
Fixpoint quoteBody (s : string) : string :=
  match s with
  | "" => ""
  | String c rest =>
      if decide (c = Ascii.ascii_of_nat 34 ∨ c = Ascii.ascii_of_nat 92)
      then String (Ascii.ascii_of_nat 92) (String c (quoteBody rest))
      else String c (quoteBody rest)
  end.

(** [fmt.Sprintf] with one [%q] verb between two literal pieces. *)
Definition Sprintf_q (pre : string) (s : string) (post : string) : string :=
  pre +:+ dquote +:+ quoteBody s +:+ dquote +:+ post.

(** ** The patch built by the admission handler (lines 93-155) *)

(** Lines 95-99. *)
Definition volumesInit : p :=
  {| Op := "add"; Path := "/spec/volumes"; Value := VArr [] |}.

(** Lines 103-112. *)
Definition volumeAdd (secretName : string) : p :=
  {| Op := "add";
     Path := "/spec/volumes/-";
     Value := VMap {[ "name" := VStr volumeName;
                      "secret" := VMap {[ "secretName" := VStr secretName ]} ]} |}.

(** Lines 115-121. *)
Definition envAppendSSL (i : nat) : p :=
  {| Op := "add";
     Path := Sprintf_d "/spec/containers/" i "/env/-";
     Value := VMap {[ "name" := VStr "SSL_CERT_FILE";
                      "value" := VStr "/ssl/ca.crt" ]} |}.

(** Lines 122-128. *)
Definition envAppendNode (i : nat) : p :=
  {| Op := "add";
     Path := Sprintf_d "/spec/containers/" i "/env/-";
     Value := VMap {[ "name" := VStr "NODE_EXTRA_CA_CERTS";
                      "value" := VStr "/ssl/ca.crt" ]} |}.

(** Lines 129-136. *)
Definition mountAppend (i : nat) : p :=
  {| Op := "add";
     Path := Sprintf_d "/spec/containers/" i "/volumeMounts/-";
     Value := VMap {[ "name" := VStr volumeName;
                      "mountPath" := VStr "/ssl";
                      "readOnly" := VBool true ]} |}.

(** Lines 140-144. *)
Definition envInit (i : nat) : p :=
  {| Op := "add";
     Path := Sprintf_d "/spec/containers/" i "/env";
     Value := VArr [] |}.

(** Lines 147-151. *)
Definition mountsInit (i : nat) : p :=
  {| Op := "add";
     Path := Sprintf_d "/spec/containers/" i "/volumeMounts";
     Value := VArr [] |}.

(** The body of the loop over containers, up to the final append: the value
    of [ps] at line 154 for the container [ctr] at index [i]. *)
Definition containerOps (i : nat) (ctr : Container) : list p :=
  let ps := [envAppendSSL i; envAppendNode i; mountAppend i] in
  let ps :=
    match ctr_Env ctr with
    | None => [envInit i] ++ ps
    | Some _ => ps
    end in
  let ps :=
    if decide (len (ctr_VolumeMounts ctr) = 0)
    then [mountsInit i] ++ ps
    else ps in
  ps.

(** [for i, ctr := range pod.Spec.Containers { ...; patch = append(patch, ps...) }],
    entered at index [i] with the remaining containers [ctrs]. *)
Fixpoint rangeContainers (i : nat) (ctrs : list Container) (patch : list p)
  : list p :=
  match ctrs with
  | [] => patch
  | ctr :: rest => rangeContainers (S i) rest (patch ++ containerOps i ctr)
  end.

(** Lines 93-155: the value of [patch] at line 157. *)
Definition buildPatch (pod : Pod) : list p :=
  let patch := [] in
  let patch :=
    match pod_Volumes pod with
    | None => patch ++ [volumesInit]
    | Some _ => patch
    end in
  let patch := patch ++ [volumeAdd (index (pod_Annotations pod) label)] in
  rangeContainers 0 (elems (pod_Containers pod)) patch.

(** ** Effects *)

Inductive Level := Info | Error | Fatal.

(** The two counter vectors of lines 50-60, labelled by namespace and name. *)
Inductive CounterVec := ctrDeletes | ctrPatches.

(** An error value; only its message matters. *)
Definition error : Type := string.

Inductive Effect :=
  | Sleep (seconds : nat)
  | Log (lvl : Level) (msg : string)
  | Inc (c : CounterVec) (namespace name : string)
  | PodsList (namespace : string)
  | EventsCreate (namespace : string) (ev : Event)
  | PodsDelete (namespace name : string).

#[global] Instance Level_eq_dec : EqDecision Level.
Proof. solve_decision. Defined.

#[global] Instance CounterVec_eq_dec : EqDecision CounterVec.
Proof. solve_decision. Defined.

#[global] Instance Effect_eq_dec : EqDecision Effect.
Proof. solve_decision. Defined.

(** What the process has done so far, oldest first. *)
Abbreviation History := (list Effect).

(** How often the effect [e] occurs in [h]. *)
Definition occurrences (e : Effect) (h : History) : nat :=
  length (filter (λ x, x = e) h).

(** The value of counter [c] at labels [(ns, name)], starting from zero. *)
Definition counter (c : CounterVec) (ns name : string) (h : History) : nat :=
  occurrences (Inc c ns name) h.

(** A computation either yields a value or ends the process ([os.Exit]). *)
Inductive Outcome (A : Type) : Type :=
  | Ret (a : A)
  | Exit (code : Z).
Arguments Ret {A} a.
Arguments Exit {A} code.

Definition M (A : Type) : Type := History → Outcome A * History.

#[global] Instance M_ret : MRet M := λ A a h, (Ret a, h).

#[global] Instance M_bind : MBind M := λ A B k c h,
  match c h with
  | (Ret a, h') => k a h'
  | (Exit code, h') => (Exit code, h')
  end.

Definition emit (e : Effect) : M unit := λ h, (Ret tt, h ++ [e]).

Definition exit {A} (code : Z) : M A := λ h, (Exit code, h).

Definition sleep (seconds : nat) : M unit := emit (Sleep seconds).

Definition logInfo (msg : string) : M unit := emit (Log Info msg).

Definition logError (msg : string) : M unit := emit (Log Error msg).

(** logrus' [Fatal] logs and then calls [os.Exit(1)]. *)
Definition logFatal {A} (msg : string) : M A := emit (Log Fatal msg) ;; exit 1.

(** [c.WithLabelValues(ns, name).Inc()]. *)
Definition inc (c : CounterVec) (ns name : string) : M unit :=
  emit (Inc c ns name).

(** ** The admission handler (lines 66-171) *)

Record Status := {
  st_Message : string
}.

(** [adm_Patch] holds the operation list that [json.Marshal] serialises into
    the response's [Patch] bytes; [None] is the absent patch. *)
Record AdmissionResponse := {
  Allowed : bool;
  adm_Patch : option (list p);
  PatchType : option string;
  Result : option Status
}.

Definition PatchTypeJSONPatch : string := "JSONPatch".

(** The handler, given the outcome of decoding the request's raw object,
    which is the work of the Kubernetes deserializer.  It returns the pair
    [(res, err)] as a sum. *)
Definition podsHandler (decoded : error + Pod) : M (error + AdmissionResponse) :=
  match decoded with
  | inl err =>
      logError "could not deserialize pod spec" ;;
      mret (inl err)
  | inr pod =>
      if decide (index (pod_Annotations pod) label = "") then
        logInfo "allowing" ;;
        mret (inr {| Allowed := true; adm_Patch := None;
                    PatchType := None; Result := None |})
      else
        logInfo "will patch" ;;
        let patch := buildPatch pod in
        inc ctrPatches (pod_Namespace pod) (pod_Name pod) ;;
        logInfo "patching" ;;
        mret (inr {| Allowed := true; adm_Patch := Some patch;
                    PatchType := Some PatchTypeJSONPatch;
                    Result := Some {| st_Message := "modified" |} |})
  end.

(** ** The reconciler goroutine (lines 178-246) *)

(** The cluster API as the reconciler sees it: each call is answered from
    the history of the process at the time of the call. *)
Record Cluster := {
  List : History → string → error + list Pod;
  Create : History → string → Event → option error;
  Delete : History → string → string → option error
}.

(** Lines 202-219. *)
Definition involvedObject (pod : Pod) : ObjectReference :=
  let or := {| or_Kind := pod_Kind pod;
               or_Namespace := pod_Namespace pod;
               or_Name := pod_Name pod;
               or_UID := pod_UID pod;
               or_APIVersion := pod_APIVersion pod;
               or_ResourceVersion := pod_ResourceVersion pod |} in
  match elems (pod_OwnerReferences pod) with
  | owner :: _ =>
      {| or_Kind := own_Kind owner;
         or_Namespace := pod_Namespace pod;
         or_Name := own_Name owner;
         or_UID := own_UID owner;
         or_APIVersion := own_APIVersion owner;
         or_ResourceVersion := "" |}
  | [] => or
  end.

(** Lines 221-225: the event handed to [Events(pod.Namespace).Create]. *)
Definition podEvent (pod : Pod) : Event :=
  {| InvolvedObject := involvedObject pod;
     Reason := "Deleting pod";
     Message := Sprintf_q "pod annotation on " (pod_Name pod)
       " has not been applied by ca-injector mutatingadmissionwebhook" |}.

(** Lines 232-236: the loop over the pod's volumes; [true] when it leaves
    through [continue items]. *)
Fixpoint rangeVolumes (vols : list Volume) (secret : string) : bool :=
  match vols with
  | [] => false
  | vol :: rest =>
      match vol_Secret vol with
      | Some src =>
          if decide (SecretName src = secret) then true
          else rangeVolumes rest secret
      | None => rangeVolumes rest secret
      end
  end.

(** The compliance predicate of the reconciler: the volume scan run with the
    value of the trigger annotation. *)
Definition compliant (pod : Pod) : bool :=
  rangeVolumes (elems (pod_Volumes pod)) (index (pod_Annotations pod) label).

Section Reconciler.

Variable cs : Cluster.

Definition podsList (ns : string) : M (error + list Pod) :=
  λ h, (Ret (List cs h ns), h ++ [PodsList ns]).

Definition eventsCreate (ns : string) (ev : Event) : M (option error) :=
  λ h, (Ret (Create cs h ns ev), h ++ [EventsCreate ns ev]).

Definition podsDelete (ns name : string) : M (option error) :=
  λ h, (Ret (Delete cs h ns name), h ++ [PodsDelete ns name]).

(** The body of the loop labelled [items] (lines 197-243). *)
Definition processPod (pod : Pod) : M unit :=
  eventsCreate (pod_Namespace pod) (podEvent pod) ;;
  let secret := index (pod_Annotations pod) label in
  if decide (secret = "") then mret tt
  else if rangeVolumes (elems (pod_Volumes pod)) secret then mret tt
  else
    logInfo "deleting pod; CA env and mount not found" ;;
    inc ctrDeletes (pod_Namespace pod) (pod_Name pod) ;;
    err ← podsDelete (pod_Namespace pod) (pod_Name pod) ;
    match err with
    | Some _ => logError "error deleting pod"
    | None => mret tt
    end.

(** [for _, pod := range pods.Items]. *)
Fixpoint rangePods (items : list Pod) : M unit :=
  match items with
  | [] => mret tt
  | pod :: rest => processPod pod ;; rangePods rest
  end.

(** One pass: lines 188-244.  The construction of the client (line 189) is
    taken to succeed: the configuration is the one checked at start-up. *)
Definition pass : M unit :=
  pods ← podsList "" ;
  match pods with
  | inl _ => logFatal "error listing pods"
  | inr items => rangePods items
  end.

(** The endless [for] of lines 182-245, cut after [n] iterations; [f] is
    the flag of line 181.  [Ret tt] means that [n] passes have run and the
    loop is still going; the loop itself never returns. *)
Fixpoint loop (n : nat) (f : bool) : M unit :=
  match n with
  | 0 => mret tt
  | S n' =>
      (if f then sleep 60 else mret tt) ;;
      pass ;;
      loop n' true
  end.

(** The goroutine of lines 178-246, observed for [n] passes. *)
Definition reconciler (n : nat) : M unit :=
  sleep 5 ;;
  loop n false.

End Reconciler.

(** * Definitions used to state the properties *)

(** The characters of a string. *)
Abbreviation chars := String.list_ascii_of_string.

(** Two character lists clash when, read from the front, they differ at a
    position that both have. *)
Fixpoint clash (l k : list Ascii.ascii) : bool :=
  match l, k with
  | a :: l', b :: k' => if decide (a = b) then clash l' k' else true
  | _, _ => false
  end.

(** [strings.HasSuffix]. *)
Definition HasSuffix (s suffix : string) : Prop :=
  chars suffix `suffix_of` chars s.

#[global] Instance HasSuffix_dec s suffix : Decision (HasSuffix s suffix).
Proof. unfold HasSuffix. apply _. Defined.

(** An append operation targets the end of an array: its path ends in [/-]. *)
Definition isAppend (op : p) : Prop := HasSuffix (Path op) "/-".

#[global] Instance isAppend_dec op : Decision (isAppend op).
Proof. unfold isAppend. apply _. Defined.

(** The operations on the volume array: lines 94-112. *)
Definition volumeOps (pod : Pod) : list p :=
  match pod_Volumes pod with
  | None => [volumesInit]
  | Some _ => []
  end ++ [volumeAdd (index (pod_Annotations pod) label)].

(** The patch in the handler's result, if it returned a response with one. *)
Definition returnedPatch (r : Outcome (error + AdmissionResponse) * History)
  : option (list p) :=
  match r.1 with
  | Ret (inr res) => adm_Patch res
  | _ => None
  end.

(** The field [k] of a map value. *)
Definition field (v : value) (k : string) : option value :=
  match v with
  | VMap kv => kv !! k
  | _ => None
  end.

(** The per-container order as the specification words it: init-env (if
    needed), the two env appends, init-mounts (if needed), the mount append. *)
Definition specContainerOps (i : nat) (ctr : Container) : list p :=
  match ctr_Env ctr with None => [envInit i] | Some _ => [] end
  ++ [envAppendSSL i; envAppendNode i]
  ++ (if decide (len (ctr_VolumeMounts ctr) = 0) then [mountsInit i] else [])
  ++ [mountAppend i].

(** Sample objects. *)
Definition bareContainer (name : string) : Container :=
  {| ctr_Name := name; ctr_Env := None; ctr_VolumeMounts := Some [] |}.

Definition emptyEnvContainer : Container :=
  {| ctr_Name := "app"; ctr_Env := Some []; ctr_VolumeMounts := None |}.

Definition mkPod (name : string) (annotations : gmap string string)
    (owners : slice OwnerReference) (volumes : slice Volume)
    (containers : slice Container) : Pod :=
  {| pod_Kind := "Pod"; pod_APIVersion := "v1"; pod_Name := name;
     pod_Namespace := "default"; pod_UID := "uid-" +:+ name;
     pod_ResourceVersion := "1"; pod_Annotations := annotations;
     pod_OwnerReferences := owners; pod_Volumes := volumes;
     pod_Containers := containers |}.

(** [default/worker-1] of the end-to-end example, as submitted. *)
Definition worker1 : Pod :=
  mkPod "worker-1" {[ label := "ca-secret" ]} None None
    (Some [bareContainer "a"; bareContainer "b"]).

Definition emptyEnvPod : Pod :=
  mkPod "web-0" {[ label := "ca-secret" ]} None None (Some [emptyEnvContainer]).

(** A pod without the trigger annotation. *)
Definition plainPod : Pod :=
  mkPod "plain" ∅ None (Some [])
    (Some [bareContainer "a"]).

(** The pod with the trigger annotation set to [s]. *)
Definition setAnnotation (pod : Pod) (s : string) : Pod :=
  {| pod_Kind := pod_Kind pod; pod_APIVersion := pod_APIVersion pod;
     pod_Name := pod_Name pod; pod_Namespace := pod_Namespace pod;
     pod_UID := pod_UID pod; pod_ResourceVersion := pod_ResourceVersion pod;
     pod_Annotations := <[label := s]> (pod_Annotations pod);
     pod_OwnerReferences := pod_OwnerReferences pod;
     pod_Volumes := pod_Volumes pod;
     pod_Containers := pod_Containers pod |}.

(** The pod with its volume list replaced. *)
Definition setVolumes (pod : Pod) (vols : slice Volume) : Pod :=
  {| pod_Kind := pod_Kind pod; pod_APIVersion := pod_APIVersion pod;
     pod_Name := pod_Name pod; pod_Namespace := pod_Namespace pod;
     pod_UID := pod_UID pod; pod_ResourceVersion := pod_ResourceVersion pod;
     pod_Annotations := pod_Annotations pod;
     pod_OwnerReferences := pod_OwnerReferences pod;
     pod_Volumes := vols;
     pod_Containers := pod_Containers pod |}.

(** The volume with its secret source renamed to [s]. *)
Definition setSecretName (vol : Volume) (s : string) : Volume :=
  {| vol_Name := vol_Name vol; vol_Secret := Some {| SecretName := s |} |}.

(** The identity of a pod in the cluster. *)
Definition podKey (pod : Pod) : string * string :=
  (pod_Namespace pod, pod_Name pod).

(** The pods the reconciler deletes: annotated and not compliant. *)
Definition needsDelete (pod : Pod) : bool :=
  bool_decide (index (pod_Annotations pod) label ≠ "") && negb (compliant pod).

Definition isEventsCreate (e : Effect) : Prop :=
  match e with
  | EventsCreate _ _ => True
  | _ => False
  end.

#[global] Instance isEventsCreate_dec e : Decision (isEventsCreate e).
Proof. destruct e; simpl; apply _. Defined.

(** The effects of one run of the loop body on [pod], started in history
    [h]. *)
Definition podTrace (cs : Cluster) (pod : Pod) (h : History) : list Effect :=
  let ns := pod_Namespace pod in
  let name := pod_Name pod in
  let before :=
    [EventsCreate ns (podEvent pod);
     Log Info "deleting pod; CA env and mount not found";
     Inc ctrDeletes ns name] in
  if needsDelete pod then
    before ++ PodsDelete ns name ::
      match Delete cs (h ++ before) ns name with
      | Some _ => [Log Error "error deleting pod"]
      | None => []
      end
  else [EventsCreate ns (podEvent pod)].

(** The effects of the loop over [pods], started in history [h]. *)
Fixpoint podsTrace (cs : Cluster) (pods : list Pod) (h : History)
  : list Effect :=
  match pods with
  | [] => []
  | pod :: rest =>
      podTrace cs pod h ++ podsTrace cs rest (h ++ podTrace cs pod h)
  end.

(** [worker1] after the mutation has landed. *)
Definition worker1Mutated : Pod :=
  setVolumes worker1
    (Some [ {| vol_Name := volumeName;
               vol_Secret := Some {| SecretName := "ca-secret" |} |} ]).

(** A pod created by a ReplicaSet, annotated but not mutated. *)
Definition ownedPod : Pod :=
  mkPod "api-7d9f" {[ label := "ca-secret" ]}
    (Some [ {| own_APIVersion := "apps/v1"; own_Kind := "ReplicaSet";
               own_Name := "api"; own_UID := "uid-rs-api" |} ])
    (Some [ {| vol_Name := "data"; vol_Secret := None |} ])
    (Some [bareContainer "api"]).

(** A cluster holding [pods] in which every call succeeds. *)
Definition quietCluster (pods : list Pod) : Cluster :=
  {| List := λ _ _, inr pods;
     Create := λ _ _ _, None;
     Delete := λ _ _ _, None |}.

(** A cluster holding [pods] that refuses every delete. *)
Definition stubbornCluster (pods : list Pod) : Cluster :=
  {| List := λ _ _, inr pods;
     Create := λ _ _ _, None;
     Delete := λ _ _ _, Some "forbidden" |}.

(** A cluster whose API server cannot be reached. *)
Definition failingCluster : Cluster :=
  {| List := λ _ _, inl "connection refused";
     Create := λ _ _ _, Some "connection refused";
     Delete := λ _ _ _, Some "connection refused" |}.

(** An annotated pod that carries the injected volume. *)
Definition compliantPod : Pod :=
  mkPod "db-0" {[ label := "ca-secret" ]} None
    (Some [ {| vol_Name := "data"; vol_Secret := None |};
            {| vol_Name := volumeName;
               vol_Secret := Some {| SecretName := "ca-secret" |} |} ])
    (Some [bareContainer "db"]).

(** A listing with one pod of each kind. *)
Definition samplePods : list Pod :=
  [worker1; compliantPod; ownedPod; plainPod].

(** ** The helper [first] (lines 29-36) *)

(** [first(ss...)]: the loop returns at the first non-empty string and falls
    through to the empty string. *)
Fixpoint first (ss : list string) : string :=
  match ss with
  | [] => ""
  | s :: rest => if decide (s ≠ "") then s else first rest
  end.

(** ** Further definitions used to state properties *)

(** The calls to the cluster API. *)
Definition isClusterCall (e : Effect) : Prop :=
  match e with
  | PodsList _ | EventsCreate _ _ | PodsDelete _ _ => True
  | _ => False
  end.

#[global] Instance isClusterCall_dec e : Decision (isClusterCall e).
Proof. destruct e; simpl; apply _. Defined.

Definition isPodsDelete (e : Effect) : Prop :=
  match e with
  | PodsDelete _ _ => True
  | _ => False
  end.

#[global] Instance isPodsDelete_dec e : Decision (isPodsDelete e).
Proof. destruct e; simpl; apply _. Defined.

(** The increments of the counter vector [c], at any labels. *)
Definition isInc (c : CounterVec) (e : Effect) : Prop :=
  match e with
  | Inc c' _ _ => c' = c
  | _ => False
  end.

#[global] Instance isInc_dec c e : Decision (isInc c e).
Proof. destruct e; simpl; apply _. Defined.

(** The effects that make up the schedule of the reconciler: sleeping and
    listing. *)
Definition isSchedule (e : Effect) : Prop :=
  match e with
  | Sleep _ | PodsList _ => True
  | _ => False
  end.

#[global] Instance isSchedule_dec e : Decision (isSchedule e).
Proof. destruct e; simpl; apply _. Defined.

(** The four path endings of the per-container operations. *)
Definition containerSuffixes : list string :=
  ["/env"; "/env/-"; "/volumeMounts"; "/volumeMounts/-"].

(** The number of operations the handler emits for one container. *)
Definition containerOpCount (ctr : Container) : nat :=
  3 + (match ctr_Env ctr with None => 1 | Some _ => 0 end)
    + (if decide (len (ctr_VolumeMounts ctr) = 0) then 1 else 0).

(** A cluster holding [pods] in which event creation fails. *)
Definition eventlessCluster (pods : list Pod) : Cluster :=
  {| List := λ _ _, inr pods;
     Create := λ _ _ _, Some "events is forbidden";
     Delete := λ _ _ _, None |}.

(** A container that already has environment variables and mounts. *)
Definition fullContainer : Container :=
  {| ctr_Name := "full";
     ctr_Env := Some [ {| env_Name := "HOME"; env_Value := "/root" |} ];
     ctr_VolumeMounts :=
       Some [ {| vm_Name := "data"; vm_MountPath := "/data";
                 vm_ReadOnly := false |} ] |}.

(** The effects the reconciler can have. *)
Definition reconcilerEffect (e : Effect) : Prop :=
  match e with
  | Sleep s => s = 5 ∨ s = 60
  | Log _ _ => True
  | Inc c _ _ => c = ctrDeletes
  | PodsList ns => ns = ""
  | EventsCreate _ _ => True
  | PodsDelete _ _ => True
  end.

(** The schedule of [n] passes: sleeps and listings in order. *)
Definition schedule (n : nat) : list Effect :=
  Sleep 5 ::
    match n with
    | 0 => []
    | S m => PodsList "" :: concat (replicate m [Sleep 60; PodsList ""])
    end.

(** [compliantPod] with other volume names and other containers. *)
Definition renamedPod : Pod :=
  mkPod "db-1" {[ label := "ca-secret"; "team" := "storage" ]} None
    (Some [ {| vol_Name := "scratch"; vol_Secret := None |};
            {| vol_Name := "trust";
               vol_Secret := Some {| SecretName := "ca-secret" |} |} ])
    (Some [fullContainer]).

(** An annotated pod without containers and without volume list. *)
Definition noContainerPod : Pod :=
  mkPod "empty" {[ label := "ca-secret" ]} None None None.

(** * Runs on sample objects *)

Example buildPatch_worker1_paths :
  Path <$> buildPatch worker1
  = ["/spec/volumes"; "/spec/volumes/-";
     "/spec/containers/0/volumeMounts"; "/spec/containers/0/env";
     "/spec/containers/0/env/-"; "/spec/containers/0/env/-";
     "/spec/containers/0/volumeMounts/-";
     "/spec/containers/1/volumeMounts"; "/spec/containers/1/env";
     "/spec/containers/1/env/-"; "/spec/containers/1/env/-";
     "/spec/containers/1/volumeMounts/-"].
Proof. reflexivity. Qed.

Example buildPatch_compliantPod_paths :
  Path <$> buildPatch compliantPod
  = ["/spec/volumes/-";
     "/spec/containers/0/volumeMounts"; "/spec/containers/0/env";
     "/spec/containers/0/env/-"; "/spec/containers/0/env/-";
     "/spec/containers/0/volumeMounts/-"].
Proof. reflexivity. Qed.

Example podEvent_worker1_message :
  Message (podEvent worker1)
  = "pod annotation on " +:+ dquote +:+ "worker-1" +:+ dquote
    +:+ " has not been applied by ca-injector mutatingadmissionwebhook".
Proof. reflexivity. Qed.

(** The sample cluster answers every listing with the same pods, so the
    second pass finds the deleted pod again. *)
Example reconciler_two_passes :
  reconciler (quietCluster [worker1; compliantPod]) 2 []
  = (Ret tt,
     [Sleep 5;
      PodsList "";
      EventsCreate "default" (podEvent worker1);
      Log Info "deleting pod; CA env and mount not found";
      Inc ctrDeletes "default" "worker-1";
      PodsDelete "default" "worker-1";
      EventsCreate "default" (podEvent compliantPod);
      Sleep 60;
      PodsList "";
      EventsCreate "default" (podEvent worker1);
      Log Info "deleting pod; CA env and mount not found";
      Inc ctrDeletes "default" "worker-1";
      PodsDelete "default" "worker-1";
      EventsCreate "default" (podEvent compliantPod)]).
Proof. reflexivity. Qed.

Example podsHandler_decode_failure :
  podsHandler (inl "unexpected end of JSON input") []
  = (Ret (inl "unexpected end of JSON input"),
     [Log Error "could not deserialize pod spec"]).
Proof. reflexivity. Qed.

(** * Strings and paths *)

Lemma chars_app (s t : string) : chars (s +:+ t) = chars s ++ chars t.
Proof.
  induction s as [|c s IH]; [done|].
  change (String c s +:+ t) with (String c (s +:+ t)).
  cbn [String.list_ascii_of_string]. by rewrite IH.
Qed.

Lemma chars_inj (s t : string) : chars s = chars t → s = t.
Proof.
  intros H.
  rewrite <-(String.string_of_list_ascii_of_string s), H.
  apply String.string_of_list_ascii_of_string.
Qed.

Lemma clash_app_ne l k x y : clash l k = true → l ++ x ≠ k ++ y.
Proof.
  revert k. induction l as [|a l IH]; intros [|b k] Hc; simplify_eq/=.
  case_decide; simplify_eq/=; [|congruence].
  intros H. simplify_eq. by eapply IH.
Qed.

Lemma suffix_clash_ne (s t post post' : string) :
  clash (reverse (chars post)) (reverse (chars post')) = true →
  s +:+ post ≠ t +:+ post'.
Proof.
  intros Hc H. apply (f_equal chars) in H. rewrite !chars_app in H.
  apply (f_equal reverse) in H. rewrite !reverse_app in H.
  by eapply clash_app_ne.
Qed.

Lemma app_inj_r (s t post : string) : s +:+ post = t +:+ post → s = t.
Proof.
  intros H. apply (f_equal chars) in H. rewrite !chars_app in H.
  apply app_inv_tail in H. by apply chars_inj.
Qed.

Lemma Sprintf_d_inj pre post i j :
  Sprintf_d pre i post = Sprintf_d pre j post → i = j.
Proof.
  unfold Sprintf_d. intros H%(inj (String.app pre))%app_inj_r.
  by apply (inj pretty).
Qed.

Lemma Sprintf_d_ne pre post post' i j :
  clash (reverse (chars post)) (reverse (chars post')) = true →
  Sprintf_d pre i post ≠ Sprintf_d pre j post'.
Proof.
  unfold Sprintf_d. intros Hc H%(inj (String.app pre)).
  by eapply suffix_clash_ne.
Qed.

(** * The shape of the patch *)

Lemma rangeContainers_spec ctrs i patch :
  rangeContainers i ctrs patch
  = patch ++ concat (imap (λ k, containerOps (i + k)) ctrs).
Proof.
  revert i patch. induction ctrs as [|ctr rest IH]; intros i patch; simpl.
  - by rewrite app_nil_r.
  - rewrite IH, <-app_assoc, Nat.add_0_r. do 3 f_equal.
    apply imap_ext. intros k c _. simpl. f_equal. lia.
Qed.

Lemma buildPatch_spec pod :
  buildPatch pod
  = volumeOps pod ++ concat (imap containerOps (elems (pod_Containers pod))).
Proof.
  unfold buildPatch, volumeOps. rewrite rangeContainers_spec.
  by destruct (pod_Volumes pod).
Qed.

Lemma filter_concat_imap {A B} (P : B → Prop) `{!∀ x, Decision (P x)}
    (f : nat → A → list B) (l : list A) :
  filter P (concat (imap f l)) = concat (imap (λ j x, filter P (f j x)) l).
Proof.
  revert f. induction l as [|x l IH]; intros f; [done|].
  rewrite !imap_cons. simpl. by rewrite filter_app, IH.
Qed.

Lemma concat_imap_nil {A B} (f : nat → A → list B) (l : list A) :
  (∀ j x, l !! j = Some x → f j x = []) → concat (imap f l) = [].
Proof.
  revert f. induction l as [|x l IH]; intros f Hf; [done|].
  rewrite imap_cons. simpl. rewrite (Hf 0 x eq_refl). simpl.
  apply IH. intros j y Hj. by apply (Hf (S j)).
Qed.

Lemma concat_imap_single {A B} (g : A → list B) (l : list A) (i : nat) :
  concat (imap (λ j x, if decide (i = j) then g x else []) l)
  = from_option g [] (l !! i).
Proof.
  revert i. induction l as [|x l IH]; intros i; [done|].
  rewrite imap_cons. destruct i as [|i]; simpl.
  - rewrite concat_imap_nil, app_nil_r; [done|].
    intros j y _. simpl. by rewrite ?decide_False by lia.
  - rewrite <-IH. f_equal. apply imap_ext. intros j y _. simpl.
    destruct (decide (i = j)); [by rewrite ?decide_True by lia|].
    by rewrite ?decide_False by lia.
Qed.

Lemma containerOps_eq i ctr :
  containerOps i ctr
  = (if decide (len (ctr_VolumeMounts ctr) = 0) then [mountsInit i] else [])
    ++ match ctr_Env ctr with None => [envInit i] | Some _ => [] end
    ++ [envAppendSSL i; envAppendNode i; mountAppend i].
Proof.
  unfold containerOps.
  by destruct (ctr_Env ctr), (decide (len (ctr_VolumeMounts ctr) = 0)).
Qed.

Lemma containers_ne_volumes i post s :
  Sprintf_d "/spec/containers/" i post ≠ "/spec/volumes" +:+ s.
Proof.
  unfold Sprintf_d. intros H. apply (f_equal (String.get 6)) in H.
  by lazy in H.
Qed.

Ltac path_side :=
  cbv beta;
  unfold envAppendSSL, envAppendNode, mountAppend, envInit, mountsInit,
    volumesInit, volumeAdd;
  cbn [Path];
  first
    [ reflexivity
    | apply Sprintf_d_ne; reflexivity
    | intros ?%Sprintf_d_inj; congruence
    | apply (containers_ne_volumes _ _ "")
    | apply (containers_ne_volumes _ _ "/-")
    | apply not_eq_sym; apply (containers_ne_volumes _ _ "")
    | apply not_eq_sym; apply (containers_ne_volumes _ _ "/-")
    | discriminate ].

Ltac filter_paths :=
  repeat first
    [ rewrite filter_nil
    | rewrite filter_cons_True by path_side
    | rewrite filter_cons_False by path_side ].

Ltac filter_ops i j ctr :=
  rewrite containerOps_eq, !filter_app;
  destruct (decide (i = j)) as [->|?];
  destruct (ctr_Env ctr), (decide (len (ctr_VolumeMounts ctr) = 0));
  by filter_paths.

Lemma filter_envAppend i j ctr :
  filter (λ op, Path op = Sprintf_d "/spec/containers/" i "/env/-")
    (containerOps j ctr)
  = if decide (i = j) then [envAppendSSL i; envAppendNode i] else [].
Proof. filter_ops i j ctr. Qed.

Lemma filter_mountAppend i j ctr :
  filter (λ op, Path op = Sprintf_d "/spec/containers/" i "/volumeMounts/-")
    (containerOps j ctr)
  = if decide (i = j) then [mountAppend i] else [].
Proof. filter_ops i j ctr. Qed.

Lemma filter_envInit i j ctr :
  filter (λ op, Path op = Sprintf_d "/spec/containers/" i "/env")
    (containerOps j ctr)
  = if decide (i = j)
    then match ctr_Env ctr with None => [envInit i] | Some _ => [] end
    else [].
Proof. filter_ops i j ctr. Qed.

Lemma filter_volumeAdd_containerOps j ctr :
  filter (λ op, Path op = "/spec/volumes/-") (containerOps j ctr) = [].
Proof.
  rewrite containerOps_eq, !filter_app.
  destruct (ctr_Env ctr), (decide (len (ctr_VolumeMounts ctr) = 0));
    by filter_paths.
Qed.

Lemma Sprintf_d_append pre i post :
  HasSuffix (Sprintf_d pre i (post +:+ "/-")) "/-".
Proof.
  unfold Sprintf_d, HasSuffix. rewrite !chars_app.
  rewrite !app_assoc. by apply suffix_app_r.
Qed.

Lemma Sprintf_d_not_append pre i post :
  clash (reverse (chars post)) (reverse (chars "/-")) = true →
  ¬ HasSuffix (Sprintf_d pre i post) "/-".
Proof.
  unfold Sprintf_d, HasSuffix. intros Hc [k Hk].
  rewrite !chars_app, app_assoc in Hk.
  apply (f_equal reverse) in Hk. rewrite !reverse_app in Hk.
  by eapply clash_app_ne.
Qed.

Lemma isAppend_volumeAdd s : isAppend (volumeAdd s).
Proof. by exists (chars "/spec/volumes"). Qed.

Lemma not_isAppend_volumesInit : ¬ isAppend volumesInit.
Proof.
  intros [k Hk]. apply (f_equal reverse) in Hk.
  rewrite reverse_app in Hk. by lazy in Hk.
Qed.

Lemma filter_isAppend_containerOps j ctr :
  filter isAppend (containerOps j ctr)
  = [envAppendSSL j; envAppendNode j; mountAppend j].
Proof.
  assert (isAppend (envAppendSSL j)) by apply (Sprintf_d_append _ _ "/env").
  assert (isAppend (envAppendNode j)) by apply (Sprintf_d_append _ _ "/env").
  assert (isAppend (mountAppend j))
    by apply (Sprintf_d_append _ _ "/volumeMounts").
  assert (¬ isAppend (envInit j))
    by (apply Sprintf_d_not_append; reflexivity).
  assert (¬ isAppend (mountsInit j))
    by (apply Sprintf_d_not_append; reflexivity).
  rewrite containerOps_eq, !filter_app.
  destruct (ctr_Env ctr), (decide (len (ctr_VolumeMounts ctr) = 0));
    repeat first
      [ rewrite filter_nil
      | rewrite filter_cons_True by assumption
      | rewrite filter_cons_False by assumption ];
    reflexivity.
Qed.

Lemma filter_isAppend_volumeOps pod :
  filter isAppend (volumeOps pod)
  = [volumeAdd (index (pod_Annotations pod) label)].
Proof.
  pose proof not_isAppend_volumesInit.
  pose proof (isAppend_volumeAdd (index (pod_Annotations pod) label)).
  unfold volumeOps. destruct (pod_Volumes pod); cbn [app];
    repeat first
      [ rewrite filter_nil
      | rewrite filter_cons_True by assumption
      | rewrite filter_cons_False by assumption ];
    reflexivity.
Qed.

Lemma filter_volumeAdd_volumeOps pod :
  filter (λ op, Path op = "/spec/volumes/-") (volumeOps pod)
  = [volumeAdd (index (pod_Annotations pod) label)].
Proof.
  unfold volumeOps. destruct (pod_Volumes pod); cbn [app]; by filter_paths.
Qed.

Lemma filter_containers_volumeOps pod i post :
  filter (λ op, Path op = Sprintf_d "/spec/containers/" i post) (volumeOps pod)
  = [].
Proof.
  unfold volumeOps. destruct (pod_Volumes pod); cbn [app]; by filter_paths.
Qed.

(** * The admission handler *)

Lemma index_lookup (m : gmap string string) k s :
  m !! k = Some s → index m k = s.
Proof. unfold index. by intros ->. Qed.

Lemma podsHandler_allow pod h :
  index (pod_Annotations pod) label = "" →
  podsHandler (inr pod) h
  = (Ret (inr {| Allowed := true; adm_Patch := None;
                 PatchType := None; Result := None |}),
     h ++ [Log Info "allowing"]).
Proof. intros Hl. unfold podsHandler. by rewrite decide_True. Qed.

Lemma podsHandler_patch pod h :
  index (pod_Annotations pod) label ≠ "" →
  podsHandler (inr pod) h
  = (Ret (inr {| Allowed := true; adm_Patch := Some (buildPatch pod);
                 PatchType := Some PatchTypeJSONPatch;
                 Result := Some {| st_Message := "modified" |} |}),
     h ++ [Log Info "will patch";
           Inc ctrPatches (pod_Namespace pod) (pod_Name pod);
           Log Info "patching"]).
Proof.
  intros Hl. unfold podsHandler. rewrite decide_False by done.
  unfold mbind, M_bind, logInfo, inc, emit, mret, M_ret.
  by rewrite <-!app_assoc.
Qed.

Lemma returnedPatch_mutated pod h :
  index (pod_Annotations pod) label ≠ "" →
  returnedPatch (podsHandler (inr pod) h) = Some (buildPatch pod).
Proof. intros Hl. by rewrite podsHandler_patch. Qed.

Lemma filter_buildPatch_container
    (P : p → Prop) `{!∀ x, Decision (P x)} (g : nat → Container → list p) pod i :
  filter P (volumeOps pod) = [] →
  (∀ j ctr, filter P (containerOps j ctr)
            = if decide (i = j) then g i ctr else []) →
  filter P (buildPatch pod)
  = from_option (g i) [] (elems (pod_Containers pod) !! i).
Proof.
  intros Hv Hc. rewrite buildPatch_spec, filter_app, Hv, filter_concat_imap.
  rewrite <-concat_imap_single. simpl. f_equal. apply imap_ext.
  intros j ctr _. apply Hc.
Qed.

Lemma concat_imap_length {A B} (f : nat → A → list B) (l : list A) n :
  (∀ j x, length (f j x) = n) → length (concat (imap f l)) = n * length l.
Proof.
  intros Hf. revert f Hf. induction l as [|x l IH]; intros f Hf; simpl.
  - lia.
  - rewrite length_app, Hf, IH; [lia|]. intros j y. apply Hf.
Qed.

(** C1: for a pod with N containers whose trigger annotation has the
    non-empty value s, the patch returned by the admission handler holds
    exactly one volume add, whose value names the fixed volume and the
    secret s; for each container index below N exactly the two environment
    appends (both with value /ssl/ca.crt) and exactly one mount append
    (mountPath /ssl, readOnly true); and these 1 + 3N operations are all the
    append operations of the patch. *)
Theorem C1_patch_completeness (pod : Pod) (s : string) (h : History) :
  pod_Annotations pod !! label = Some s →
  s ≠ "" →
  let patch := buildPatch pod in
  let ctrs := elems (pod_Containers pod) in
  returnedPatch (podsHandler (inr pod) h) = Some patch
  ∧ filter (λ op, Path op = "/spec/volumes/-") patch = [volumeAdd s]
  ∧ field (Value (volumeAdd s)) "name" = Some (VStr volumeName)
  ∧ field (Value (volumeAdd s)) "secret"
    = Some (VMap {[ "secretName" := VStr s ]})
  ∧ (∀ i, i < length ctrs →
       filter (λ op, Path op = Sprintf_d "/spec/containers/" i "/env/-") patch
       = [envAppendSSL i; envAppendNode i]
       ∧ field (Value (envAppendSSL i)) "value" = Some (VStr "/ssl/ca.crt")
       ∧ field (Value (envAppendNode i)) "value" = Some (VStr "/ssl/ca.crt")
       ∧ filter
           (λ op, Path op = Sprintf_d "/spec/containers/" i "/volumeMounts/-")
           patch
         = [mountAppend i]
       ∧ field (Value (mountAppend i)) "mountPath" = Some (VStr "/ssl")
       ∧ field (Value (mountAppend i)) "readOnly" = Some (VBool true))
  ∧ filter isAppend patch
    = volumeAdd s
      :: concat (imap (λ i _, [envAppendSSL i; envAppendNode i; mountAppend i])
                   ctrs)
  ∧ length (filter isAppend patch) = 1 + 3 * length ctrs.
Proof.
  intros Hs Hne patch ctrs. apply index_lookup in Hs.
  assert (Happ : filter isAppend patch
    = volumeAdd s
      :: concat (imap (λ i _, [envAppendSSL i; envAppendNode i; mountAppend i])
                   ctrs)).
  { unfold patch. rewrite buildPatch_spec, filter_app.
    rewrite filter_isAppend_volumeOps, Hs, filter_concat_imap. simpl.
    do 2 f_equal. apply imap_ext. intros j ctr _.
    apply filter_isAppend_containerOps. }
  split_and!; try done.
  - apply returnedPatch_mutated. by rewrite Hs.
  - unfold patch. rewrite buildPatch_spec, filter_app.
    rewrite filter_volumeAdd_volumeOps, Hs, filter_concat_imap.
    rewrite concat_imap_nil; [done|].
    intros j ctr _. apply filter_volumeAdd_containerOps.
  - intros i [ctr Hi]%lookup_lt_is_Some_2. split_and!; try done.
    + unfold patch.
      rewrite (filter_buildPatch_container _
                 (λ i _, [envAppendSSL i; envAppendNode i]) pod i).
      * fold ctrs. by rewrite Hi.
      * apply filter_containers_volumeOps.
      * intros j c. apply filter_envAppend.
    + unfold patch.
      rewrite (filter_buildPatch_container _ (λ i _, [mountAppend i]) pod i).
      * fold ctrs. by rewrite Hi.
      * apply filter_containers_volumeOps.
      * intros j c. apply filter_mountAppend.
  - rewrite Happ. simpl. f_equal.
    rewrite (concat_imap_length _ _ 3); [lia|done].
Qed.

Lemma C1_patch_completeness_witness :
  pod_Annotations worker1 !! label = Some "ca-secret"
  ∧ "ca-secret" ≠ ""
  ∧ returnedPatch (podsHandler (inr worker1) []) = Some (buildPatch worker1)
  ∧ length (filter isAppend (buildPatch worker1)) = 7.
Proof.
  assert (H1 : pod_Annotations worker1 !! label = Some "ca-secret")
    by reflexivity.
  assert (H2 : "ca-secret" ≠ "") by discriminate.
  pose proof (C1_patch_completeness worker1 "ca-secret" [] H1 H2) as H.
  simpl in H. destruct H as (Hr & _ & _ & _ & _ & _ & Hlen).
  split_and!; [exact H1 | exact H2 | exact Hr | exact Hlen].
Defined.

(** C4: when the trigger annotation is absent or empty, the admission
    handler returns an allowed response without patch (and without patch
    type or result), whatever the containers and volumes of the pod; its
    only effect is one log line. *)
Theorem C4_allow_unchanged (pod : Pod) (h : History) :
  pod_Annotations pod !! label = None ∨ pod_Annotations pod !! label = Some "" →
  podsHandler (inr pod) h
  = (Ret (inr {| Allowed := true; adm_Patch := None;
                 PatchType := None; Result := None |}),
     h ++ [Log Info "allowing"]).
Proof.
  intros Hl. apply podsHandler_allow. unfold index.
  by destruct Hl as [-> | ->].
Qed.

Lemma C4_allow_unchanged_witness :
  pod_Annotations plainPod !! label = None
  ∧ podsHandler (inr plainPod) []
    = (Ret (inr {| Allowed := true; adm_Patch := None;
                   PatchType := None; Result := None |}),
       [Log Info "allowing"]).
Proof.
  assert (H : pod_Annotations plainPod !! label = None) by reflexivity.
  split; [exact H|].
  exact (C4_allow_unchanged plainPod [] (or_introl H)).
Defined.

(** C5 (as stated, refuted): on [worker1] the operations of container 0
    start with the init of its volume-mount array, before the init of its
    environment array and before the two environment appends, so the patch
    is not in the order init-env, env appends, init-mounts, mount append. *)
Lemma C5_counterexample :
  returnedPatch (podsHandler (inr worker1) []) = Some (buildPatch worker1)
  ∧ buildPatch worker1 !! 2 = Some (mountsInit 0)
  ∧ buildPatch worker1 !! 3 = Some (envInit 0)
  ∧ buildPatch worker1 !! 4 = Some (envAppendSSL 0)
  ∧ buildPatch worker1
    ≠ volumeOps worker1
      ++ concat (imap specContainerOps (elems (pod_Containers worker1))).
Proof.
  split_and!; try reflexivity.
  intros H. apply (f_equal (λ l, Path <$> l !! 2)) in H.
  vm_compute in H. discriminate H.
Qed.

(** C5 (amended): for a pod that is mutated, the patch is the volume
    operations followed, container by container in the original order, by:
    the init of the volume-mount array (only when the container has no
    volume mounts), the init of the environment array (only when the
    environment slice is nil), the two environment appends, the mount append;
    every one of these paths starts with /spec/containers/ and the decimal
    index of the container. *)
Theorem C5_container_order (pod : Pod) (h : History) :
  index (pod_Annotations pod) label ≠ "" →
  let patch := buildPatch pod in
  returnedPatch (podsHandler (inr pod) h) = Some patch
  ∧ patch
    = volumeOps pod
      ++ concat (imap (λ i ctr,
           (if decide (len (ctr_VolumeMounts ctr) = 0)
            then [mountsInit i] else [])
           ++ match ctr_Env ctr with None => [envInit i] | Some _ => [] end
           ++ [envAppendSSL i; envAppendNode i; mountAppend i])
         (elems (pod_Containers pod)))
  ∧ ∀ i,
      Forall (λ op, ∃ rest, Path op = "/spec/containers/" +:+ pretty i +:+ rest)
        [mountsInit i; envInit i; envAppendSSL i; envAppendNode i;
         mountAppend i].
Proof.
  intros Hl patch. split_and!.
  - by apply returnedPatch_mutated.
  - unfold patch. rewrite buildPatch_spec. do 2 f_equal.
    apply imap_ext. intros i ctr _. apply containerOps_eq.
  - intros i. repeat (apply Forall_cons; split); [..|apply Forall_nil];
      eexists; reflexivity.
Qed.

Lemma C5_container_order_witness :
  index (pod_Annotations worker1) label ≠ ""
  ∧ buildPatch worker1
    = [volumesInit; volumeAdd "ca-secret";
       mountsInit 0; envInit 0; envAppendSSL 0; envAppendNode 0; mountAppend 0;
       mountsInit 1; envInit 1; envAppendSSL 1; envAppendNode 1; mountAppend 1].
Proof.
  assert (H : index (pod_Annotations worker1) label ≠ "") by discriminate.
  split; [exact H|].
  destruct (C5_container_order worker1 [] H) as (_ & -> & _). reflexivity.
Defined.

(** C6 (as stated, refuted): the only container of [emptyEnvPod] has an
    empty, non-nil environment list, and the patch holds no init operation
    for its environment array. *)
Lemma C6_counterexample :
  elems (pod_Containers emptyEnvPod) !! 0 = Some emptyEnvContainer
  ∧ ctr_Env emptyEnvContainer = Some []
  ∧ len (ctr_Env emptyEnvContainer) = 0
  ∧ returnedPatch (podsHandler (inr emptyEnvPod) [])
    = Some (buildPatch emptyEnvPod)
  ∧ filter (λ op, Path op = "/spec/containers/0/env") (buildPatch emptyEnvPod)
    = [].
Proof. split_and!; reflexivity. Qed.

(** C6 (amended): for the container at index i of a pod that is mutated,
    the patch holds no init operation for the environment array when the
    environment slice is non-nil (empty or not), and exactly one when it is
    nil; in that case the init operation stands immediately before the two
    environment appends of the container. *)
Theorem C6_env_init (pod : Pod) (i : nat) (ctr : Container) (h : History) :
  index (pod_Annotations pod) label ≠ "" →
  elems (pod_Containers pod) !! i = Some ctr →
  let patch := buildPatch pod in
  returnedPatch (podsHandler (inr pod) h) = Some patch
  ∧ filter (λ op, Path op = Sprintf_d "/spec/containers/" i "/env") patch
    = match ctr_Env ctr with None => [envInit i] | Some _ => [] end
  ∧ (ctr_Env ctr = None →
     ∃ pre post,
       patch = pre ++ [envInit i; envAppendSSL i; envAppendNode i] ++ post).
Proof.
  intros Hl Hi patch. split_and!.
  - by apply returnedPatch_mutated.
  - unfold patch.
    rewrite (filter_buildPatch_container _
      (λ i ctr, match ctr_Env ctr with None => [envInit i] | Some _ => [] end)
      pod i).
    + by rewrite Hi.
    + apply filter_containers_volumeOps.
    + intros j c. apply filter_envInit.
  - intros Hnil. unfold patch. rewrite buildPatch_spec.
    apply list_elem_of_split_length in Hi as (l1 & l2 & Hl12 & Hlen).
    rewrite Hl12, imap_app, concat_app, imap_cons. simpl.
    rewrite containerOps_eq, Hnil, Nat.add_0_r, <-Hlen.
    exists (volumeOps pod ++ concat (imap containerOps l1)
            ++ if decide (len (ctr_VolumeMounts ctr) = 0)
               then [mountsInit i] else []),
      (mountAppend i
       :: concat (imap ((λ n, containerOps (i + n)) ∘ S) l2)).
    by rewrite <-!app_assoc.
Qed.

Lemma C6_env_init_witness :
  index (pod_Annotations worker1) label ≠ ""
  ∧ elems (pod_Containers worker1) !! 1 = Some (bareContainer "b")
  ∧ filter (λ op, Path op = Sprintf_d "/spec/containers/" 1 "/env")
      (buildPatch worker1)
    = [envInit 1].
Proof.
  assert (H1 : index (pod_Annotations worker1) label ≠ "") by discriminate.
  assert (H2 : elems (pod_Containers worker1) !! 1 = Some (bareContainer "b"))
    by reflexivity.
  split_and!; [exact H1 | exact H2 |].
  exact (proj1 (proj2 (C6_env_init worker1 1 (bareContainer "b") [] H1 H2))).
Defined.

(** C8 (as stated, refuted): for [worker1], which has no volume list, the
    patch has 12 operations, two of them on the volume array. *)
Lemma C8_counterexample :
  pod_Annotations worker1 !! label = Some "ca-secret"
  ∧ pod_Volumes worker1 = None
  ∧ pod_Containers worker1 = Some [bareContainer "a"; bareContainer "b"]
  ∧ ctr_Env (bareContainer "a") = None
  ∧ ctr_VolumeMounts (bareContainer "a") = Some []
  ∧ ctr_Env (bareContainer "b") = None
  ∧ ctr_VolumeMounts (bareContainer "b") = Some []
  ∧ returnedPatch (podsHandler (inr worker1) []) = Some (buildPatch worker1)
  ∧ length (buildPatch worker1) = 12
  ∧ take 2 (buildPatch worker1) = [volumesInit; volumeAdd "ca-secret"].
Proof. split_and!; reflexivity. Qed.

(** C8 (amended): for a pod annotated with secret ca-secret that has two
    containers, each with a nil environment and no volume mounts, and no
    volumes, the patch consists of the volume operations followed, per
    container, by init-mounts, init-env, the two env appends and the mount
    append.  Without a volume list (nil) the volume operations are the array
    init and the volume add and the patch has 12 operations; with an empty
    volume list the volume add stands alone and the patch has 11. *)
Theorem C8_two_container_patch (pod : Pod) (c1 c2 : Container) (h : History) :
  pod_Annotations pod !! label = Some "ca-secret" →
  elems (pod_Containers pod) = [c1; c2] →
  ctr_Env c1 = None → len (ctr_VolumeMounts c1) = 0 →
  ctr_Env c2 = None → len (ctr_VolumeMounts c2) = 0 →
  len (pod_Volumes pod) = 0 →
  let patch := buildPatch pod in
  returnedPatch (podsHandler (inr pod) h) = Some patch
  ∧ patch
    = match pod_Volumes pod with None => [volumesInit] | Some _ => [] end
      ++ [volumeAdd "ca-secret";
          mountsInit 0; envInit 0; envAppendSSL 0; envAppendNode 0;
          mountAppend 0;
          mountsInit 1; envInit 1; envAppendSSL 1; envAppendNode 1;
          mountAppend 1]
  ∧ length patch = match pod_Volumes pod with None => 12 | Some _ => 11 end.
Proof.
  intros Hs%index_lookup Hc He1 Hm1 He2 Hm2 Hv patch.
  assert (Hp : patch
    = match pod_Volumes pod with None => [volumesInit] | Some _ => [] end
      ++ [volumeAdd "ca-secret";
          mountsInit 0; envInit 0; envAppendSSL 0; envAppendNode 0;
          mountAppend 0;
          mountsInit 1; envInit 1; envAppendSSL 1; envAppendNode 1;
          mountAppend 1]).
  { unfold patch. rewrite buildPatch_spec, Hc. unfold volumeOps.
    rewrite Hs, <-app_assoc. f_equal. cbn [imap concat app].
    unfold compose. rewrite !containerOps_eq, He1, He2.
    by rewrite !decide_True by done. }
  split_and!.
  - apply returnedPatch_mutated. by rewrite Hs.
  - exact Hp.
  - rewrite Hp. by destruct (pod_Volumes pod).
Qed.

Lemma C8_two_container_patch_witness :
  pod_Annotations worker1 !! label = Some "ca-secret"
  ∧ elems (pod_Containers worker1) = [bareContainer "a"; bareContainer "b"]
  ∧ ctr_Env (bareContainer "a") = None
  ∧ len (ctr_VolumeMounts (bareContainer "a")) = 0
  ∧ ctr_Env (bareContainer "b") = None
  ∧ len (ctr_VolumeMounts (bareContainer "b")) = 0
  ∧ len (pod_Volumes worker1) = 0
  ∧ length (buildPatch worker1) = 12.
Proof.
  split_and!; [reflexivity..|].
  exact (proj2 (proj2 (C8_two_container_patch worker1
    (bareContainer "a") (bareContainer "b") []
    eq_refl eq_refl eq_refl eq_refl eq_refl eq_refl eq_refl))).
Defined.

(** * The reconciler *)

Lemma rangeVolumes_true vols secret :
  rangeVolumes vols secret = true
  ↔ ∃ vol src,
      vol ∈ vols ∧ vol_Secret vol = Some src ∧ SecretName src = secret.
Proof.
  induction vols as [|vol rest IH]; simpl.
  - split; [done|]. intros (? & ? & []%elem_of_nil & _).
  - destruct (vol_Secret vol) as [src|] eqn:Hsrc.
    + case_decide as Hn.
      * split; [|done]. intros _. exists vol, src. by rewrite elem_of_cons; auto.
      * rewrite IH. split.
        -- intros (v & s & Hv & Hs & Hm). exists v, s.
           rewrite elem_of_cons. auto.
        -- intros (v & s & [->|Hv]%elem_of_cons & Hs & Hm).
           ++ congruence.
           ++ by exists v, s.
    + rewrite IH. split.
      * intros (v & s & Hv & Hs & Hm). exists v, s.
        rewrite elem_of_cons. auto.
      * intros (v & s & [->|Hv]%elem_of_cons & Hs & Hm).
        -- congruence.
        -- by exists v, s.
Qed.

Lemma rangeVolumes_false vols secret :
  rangeVolumes vols secret = false
  ↔ ∀ vol src,
      vol ∈ vols → vol_Secret vol = Some src → SecretName src ≠ secret.
Proof.
  rewrite <-not_true_iff_false, rangeVolumes_true. split.
  - intros Hn vol src Hv Hs Hm. apply Hn. by exists vol, src.
  - intros Ha (vol & src & Hv & Hs & Hm). by eapply Ha.
Qed.

(** C2: the compliance predicate of the reconciler holds exactly when some
    volume of the pod has a secret source whose name is the value of the
    trigger annotation; after the annotation value is changed to a name that
    no volume's secret carries, and after the secret name of the only
    matching volume is changed to a different name, the predicate is
    false. *)
Theorem C2_compliance_predicate (pod : Pod) :
  (compliant pod = true
   ↔ ∃ vol src,
       vol ∈ elems (pod_Volumes pod)
       ∧ vol_Secret vol = Some src
       ∧ SecretName src = index (pod_Annotations pod) label)
  ∧ (∀ s',
       (∀ vol src, vol ∈ elems (pod_Volumes pod) →
                   vol_Secret vol = Some src → SecretName src ≠ s') →
       compliant (setAnnotation pod s') = false)
  ∧ (∀ vols1 vol vols2 s',
       elems (pod_Volumes pod) = vols1 ++ vol :: vols2 →
       (∀ v src, v ∈ vols1 ++ vols2 → vol_Secret v = Some src →
                 SecretName src ≠ index (pod_Annotations pod) label) →
       s' ≠ index (pod_Annotations pod) label →
       compliant
         (setVolumes pod (Some (vols1 ++ setSecretName vol s' :: vols2)))
       = false).
Proof.
  split_and!.
  - apply rangeVolumes_true.
  - intros s' Hno. unfold compliant, setAnnotation, index. simpl.
    rewrite lookup_insert_eq. by apply rangeVolumes_false.
  - intros vols1 vol vols2 s' Hvols Hno Hs'. unfold compliant. simpl.
    apply rangeVolumes_false. intros v src Hv Hsrc.
    apply elem_of_app in Hv as [Hv|Hv].
    + apply (Hno v src); [|done]. apply elem_of_app. by left.
    + apply elem_of_cons in Hv as [->|Hv].
      * simpl in Hsrc. by simplify_eq.
      * apply (Hno v src); [|done]. apply elem_of_app. by right.
Qed.

Lemma C2_compliance_predicate_witness :
  compliant worker1Mutated = true
  ∧ compliant (setAnnotation worker1Mutated "other-ca") = false
  ∧ compliant
      (setVolumes worker1Mutated
         (Some [setSecretName
                  {| vol_Name := volumeName;
                     vol_Secret := Some {| SecretName := "ca-secret" |} |}
                  "other-ca"]))
    = false.
Proof.
  destruct (C2_compliance_predicate worker1Mutated) as (Hiff & Hann & Hvol).
  split_and!.
  - apply Hiff. eexists _, _. split_and!; [by left | reflexivity..].
  - apply Hann. intros vol src Hv Hs.
    apply list_elem_of_singleton in Hv as ->. simpl in Hs.
    injection Hs as <-. discriminate.
  - apply (Hvol [] _ [] "other-ca"); [reflexivity | | discriminate].
    intros v src Hv. by apply elem_of_nil in Hv.
Defined.

Section ReconcilerRuns.

Variable cs : Cluster.

Lemma needsDelete_true pod :
  needsDelete pod = true
  ↔ index (pod_Annotations pod) label ≠ "" ∧ compliant pod = false.
Proof.
  unfold needsDelete.
  rewrite andb_true_iff, bool_decide_eq_true, negb_true_iff. done.
Qed.

Lemma needsDelete_false pod :
  needsDelete pod = false
  ↔ index (pod_Annotations pod) label = "" ∨ compliant pod = true.
Proof.
  unfold needsDelete.
  rewrite andb_false_iff, bool_decide_eq_false, negb_false_iff.
  split; (intros [H|H]; [left|by right]).
  - by destruct (decide (index (pod_Annotations pod) label = "")).
  - by intros ?.
Qed.

Lemma processPod_run pod h :
  processPod cs pod h = (Ret tt, h ++ podTrace cs pod h).
Proof.
  unfold processPod, podTrace, needsDelete.
  unfold mbind, M_bind, eventsCreate at 1. fold (compliant pod).
  destruct (decide (index (pod_Annotations pod) label = "")) as [He|Hne].
  - by rewrite bool_decide_eq_false_2 by (by intros ?).
  - rewrite bool_decide_eq_true_2 by done.
    destruct (compliant pod); [done|]. simpl.
    unfold logInfo, inc, emit, podsDelete, logError, emit, mret, M_ret.
    rewrite <-!app_assoc. simpl.
    destruct (Delete cs _ _ _); by rewrite <-?app_assoc.
Qed.

Lemma rangePods_run pods h :
  rangePods cs pods h = (Ret tt, h ++ podsTrace cs pods h).
Proof.
  revert h. induction pods as [|pod rest IH]; intros h; simpl.
  - unfold mret, M_ret. by rewrite app_nil_r.
  - unfold mbind, M_bind. rewrite processPod_run, IH.
    by rewrite <-app_assoc.
Qed.

Lemma pass_run_ok pods h :
  List cs h "" = inr pods →
  pass cs h
  = (Ret tt, h ++ PodsList "" :: podsTrace cs pods (h ++ [PodsList ""])).
Proof.
  intros Hl. unfold pass, mbind, M_bind, podsList. rewrite Hl.
  rewrite rangePods_run. by rewrite <-app_assoc.
Qed.

Lemma pass_run_fail e h :
  List cs h "" = inl e →
  pass cs h = (Exit 1, h ++ [PodsList ""; Log Fatal "error listing pods"]).
Proof.
  intros Hl. unfold pass, mbind, M_bind, podsList. rewrite Hl.
  unfold logFatal, mbind, M_bind, emit, exit. by rewrite <-app_assoc.
Qed.

Lemma occurrences_app e h1 h2 :
  occurrences e (h1 ++ h2) = occurrences e h1 + occurrences e h2.
Proof. unfold occurrences. by rewrite filter_app, length_app. Qed.

Lemma occurrences_cons e x h :
  occurrences e (x :: h)
  = (if decide (x = e) then 1 else 0) + occurrences e h.
Proof.
  unfold occurrences. rewrite filter_cons. by destruct (decide (x = e)).
Qed.

Ltac count_effects :=
  repeat (rewrite occurrences_cons;
          destruct (decide _) as [Heq|Hneq];
          [try discriminate Heq; try (injection Heq as ??; tauto); clear Heq
          |try (exfalso; apply Hneq; reflexivity); clear Hneq]);
  reflexivity.

(** The effects of one pod that bear on deletion: per pod identity, one
    delete call and one counter increment when the pod needs deletion. *)
Lemma occurrences_podTrace pod h ns name :
  let n :=
    if decide (needsDelete pod = true ∧ podKey pod = (ns, name))
    then 1 else 0 in
  occurrences (PodsDelete ns name) (podTrace cs pod h) = n
  ∧ occurrences (Inc ctrDeletes ns name) (podTrace cs pod h) = n.
Proof.
  unfold podTrace, podKey. destruct (needsDelete pod); cbn [app].
  - destruct (decide (pod_Namespace pod = ns ∧ pod_Name pod = name))
      as [[-> ->]|Hk].
    + rewrite decide_True by done.
      destruct (Delete cs _ _ _); split; count_effects.
    + rewrite decide_False by (intros [_ [=]]; auto).
      destruct (Delete cs _ _ _); split; count_effects.
  - rewrite decide_False by (by intros [? _]).
    split; count_effects.
Qed.

Lemma occurrences_podsTrace pods h ns name :
  let n :=
    length (filter (λ q, needsDelete q = true ∧ podKey q = (ns, name)) pods)
  in
  occurrences (PodsDelete ns name) (podsTrace cs pods h) = n
  ∧ occurrences (Inc ctrDeletes ns name) (podsTrace cs pods h) = n.
Proof.
  revert h. induction pods as [|pod rest IH]; intros h; [done|].
  simpl. rewrite !occurrences_app, filter_cons.
  destruct (occurrences_podTrace pod h ns name) as [-> ->].
  destruct (IH (h ++ podTrace cs pod h)) as [-> ->].
  by case_decide.
Qed.

(** As long as the listing succeeds the loop keeps running: observed for
    [n] passes it has not exited. *)
Lemma loop_survives n f h :
  (∀ h', ∃ pods, List cs h' "" = inr pods) →
  ∃ h', loop cs n f h = (Ret tt, h').
Proof.
  intros Hok. revert f h. induction n as [|n IH]; intros f h; simpl.
  - by eexists.
  - unfold mbind, M_bind.
    destruct f; unfold sleep, emit, mret, M_ret.
    + destruct (Hok (h ++ [Sleep 60])) as [pods Hl].
      rewrite (pass_run_ok _ _ Hl). apply IH.
    + destruct (Hok h) as [pods Hl].
      rewrite (pass_run_ok _ _ Hl). apply IH.
Qed.

End ReconcilerRuns.

Lemma filter_none {A} (P : A → Prop) `{!∀ x, Decision (P x)} (l : list A) :
  (∀ x, x ∈ l → ¬ P x) → filter P l = [].
Proof.
  induction l as [|x l IH]; intros Hl; [done|].
  rewrite filter_cons_False by (apply Hl; by left).
  apply IH. intros y Hy. apply Hl. by right.
Qed.

Lemma filter_unique_key (P : Pod → Prop) `{!∀ q, Decision (P q)}
    (pods : list Pod) (pod : Pod) :
  NoDup (podKey <$> pods) → pod ∈ pods →
  length (filter (λ q, P q ∧ podKey q = podKey pod) pods)
  = if decide (P pod) then 1 else 0.
Proof.
  induction pods as [|q rest IH]; intros Hnd Hin.
  - by apply elem_of_nil in Hin.
  - rewrite fmap_cons in Hnd. apply NoDup_cons in Hnd as [Hq Hnd].
    rewrite filter_cons. apply elem_of_cons in Hin as [->|Hin].
    + assert (filter (λ q0, P q0 ∧ podKey q0 = podKey q) rest = []) as Hnil.
      { apply filter_none. intros x Hx [_ Hk].
        apply Hq. rewrite <-Hk. by apply list_elem_of_fmap_2. }
      rewrite Hnil. destruct (decide (P q)) as [HP|HP].
      * by rewrite decide_True.
      * by rewrite decide_False by (by intros [? _]).
    + rewrite decide_False.
      * by apply IH.
      * intros [_ Hk]. apply Hq. rewrite Hk. by apply list_elem_of_fmap_2.
Qed.

(** C3: in one pass over a listing in which pod identities are unique, a pod
    with a non-empty trigger annotation and no volume whose secret source
    carries the annotation value gets exactly one delete call, by its
    namespace and name, and exactly one increment of the deletion counter at
    these labels; a pod that is compliant, or whose trigger annotation is
    absent or empty, gets neither. *)
Theorem C3_reconciler_remediation
    (cs : Cluster) (h : History) (pods : list Pod) (pod : Pod) :
  List cs h "" = inr pods →
  NoDup (podKey <$> pods) →
  pod ∈ pods →
  let ns := pod_Namespace pod in
  let name := pod_Name pod in
  ∃ t,
    pass cs h = (Ret tt, h ++ t)
    ∧ (index (pod_Annotations pod) label ≠ "" →
       (∀ vol src, vol ∈ elems (pod_Volumes pod) →
                   vol_Secret vol = Some src →
                   SecretName src ≠ index (pod_Annotations pod) label) →
       occurrences (PodsDelete ns name) t = 1
       ∧ occurrences (Inc ctrDeletes ns name) t = 1
       ∧ counter ctrDeletes ns name (h ++ t)
         = counter ctrDeletes ns name h + 1)
    ∧ (compliant pod = true
       ∨ pod_Annotations pod !! label = None
       ∨ pod_Annotations pod !! label = Some "" →
       occurrences (PodsDelete ns name) t = 0
       ∧ occurrences (Inc ctrDeletes ns name) t = 0
       ∧ counter ctrDeletes ns name (h ++ t) = counter ctrDeletes ns name h).
Proof.
  intros Hl Hnd Hin ns name.
  exists (PodsList "" :: podsTrace cs pods (h ++ [PodsList ""])).
  split; [by apply pass_run_ok|].
  pose proof (occurrences_podsTrace cs pods (h ++ [PodsList ""])
                (pod_Namespace pod) (pod_Name pod)) as [Hd Hi].
  cbv zeta in Hd, Hi. subst ns name.
  change (pod_Namespace pod, pod_Name pod) with (podKey pod) in Hd, Hi.
  rewrite (filter_unique_key (λ q, needsDelete q = true)) in Hd, Hi by done.
  unfold counter. rewrite !occurrences_app, !occurrences_cons.
  rewrite !decide_False by discriminate. rewrite Hd, Hi.
  split.
  - intros Hann Hvols.
    rewrite decide_True; [by rewrite Nat.add_0_l|].
    apply needsDelete_true. split; [done|]. by apply rangeVolumes_false.
  - intros Hskip.
    rewrite decide_False; [by rewrite !Nat.add_0_r|].
    rewrite not_true_iff_false, needsDelete_false.
    destruct Hskip as [Hc|[Hn|Hn]]; [by right|left; unfold index..];
      by rewrite Hn.
Qed.

Lemma samplePods_NoDup : NoDup (podKey <$> samplePods).
Proof.
  repeat (apply NoDup_cons; split;
          [rewrite ?not_elem_of_cons; split_and?;
           try discriminate; apply not_elem_of_nil|]).
  apply NoDup_nil_2.
Qed.

Lemma C3_reconciler_remediation_witness :
  List (quietCluster samplePods) [Sleep 5] "" = inr samplePods
  ∧ NoDup (podKey <$> samplePods)
  ∧ worker1 ∈ samplePods
  ∧ compliantPod ∈ samplePods
  ∧ ∃ t,
      pass (quietCluster samplePods) [Sleep 5] = (Ret tt, [Sleep 5] ++ t)
      ∧ occurrences (PodsDelete "default" "worker-1") t = 1
      ∧ occurrences (Inc ctrDeletes "default" "worker-1") t = 1
      ∧ occurrences (PodsDelete "default" "db-0") t = 0
      ∧ occurrences (Inc ctrDeletes "default" "db-0") t = 0.
Proof.
  assert (Hin1 : worker1 ∈ samplePods) by (by left).
  assert (Hin2 : compliantPod ∈ samplePods) by (right; by left).
  split_and!; [reflexivity | exact samplePods_NoDup | exact Hin1 | exact Hin2 |].
  destruct (C3_reconciler_remediation (quietCluster samplePods) [Sleep 5]
              samplePods worker1 eq_refl samplePods_NoDup Hin1)
    as (t & Hrun & Hdel & _).
  destruct (C3_reconciler_remediation (quietCluster samplePods) [Sleep 5]
              samplePods compliantPod eq_refl samplePods_NoDup Hin2)
    as (t' & Hrun' & _ & Hkeep).
  rewrite Hrun in Hrun'. injection Hrun' as <-.
  exists t. split; [exact Hrun|].
  destruct Hdel as (Hd & Hi & _).
  { discriminate. }
  { intros vol src Hv. by apply elem_of_nil in Hv. }
  destruct Hkeep as (Hd' & Hi' & _).
  { by left. }
  by split_and!.
Defined.

Lemma filter_isEventsCreate_podTrace cs pod h :
  filter isEventsCreate (podTrace cs pod h)
  = [EventsCreate (pod_Namespace pod) (podEvent pod)].
Proof.
  unfold podTrace. destruct (needsDelete pod); [|done].
  by destruct (Delete cs _ _ _).
Qed.

Lemma filter_isEventsCreate_podsTrace cs pods h :
  filter isEventsCreate (podsTrace cs pods h)
  = (λ pod, EventsCreate (pod_Namespace pod) (podEvent pod)) <$> pods.
Proof.
  revert h. induction pods as [|pod rest IH]; intros h; [done|].
  simpl. by rewrite filter_app, filter_isEventsCreate_podTrace, IH.
Qed.

(** C9: a pass issues, for every pod of the listing and in the order of the
    listing, exactly one event creation, in the pod's namespace, whether or
    not the pod is annotated or compliant.  The involved object of the event
    takes kind, name, UID and API version from the first owner reference and
    the namespace from the pod when the pod has an owner reference, and is
    the pod's own identity otherwise. *)
Theorem C9_event_per_pod (cs : Cluster) (h : History) (pods : list Pod) :
  List cs h "" = inr pods →
  (∃ t,
     pass cs h = (Ret tt, h ++ t)
     ∧ filter isEventsCreate t
       = (λ pod, EventsCreate (pod_Namespace pod) (podEvent pod)) <$> pods)
  ∧ (∀ pod owner others,
       elems (pod_OwnerReferences pod) = owner :: others →
       InvolvedObject (podEvent pod)
       = {| or_Kind := own_Kind owner;
            or_Namespace := pod_Namespace pod;
            or_Name := own_Name owner;
            or_UID := own_UID owner;
            or_APIVersion := own_APIVersion owner;
            or_ResourceVersion := "" |})
  ∧ (∀ pod,
       len (pod_OwnerReferences pod) = 0 →
       InvolvedObject (podEvent pod)
       = {| or_Kind := pod_Kind pod;
            or_Namespace := pod_Namespace pod;
            or_Name := pod_Name pod;
            or_UID := pod_UID pod;
            or_APIVersion := pod_APIVersion pod;
            or_ResourceVersion := pod_ResourceVersion pod |}).
Proof.
  intros Hl. split_and!.
  - exists (PodsList "" :: podsTrace cs pods (h ++ [PodsList ""])).
    split; [by apply pass_run_ok|].
    rewrite filter_cons_False by (by intros ?).
    apply filter_isEventsCreate_podsTrace.
  - intros pod owner others Ho. simpl. unfold involvedObject. by rewrite Ho.
  - intros pod Ho. simpl. unfold involvedObject.
    by destruct (pod_OwnerReferences pod) as [[|??]|].
Qed.

Lemma C9_event_per_pod_witness :
  List (quietCluster samplePods) [] "" = inr samplePods
  ∧ ∃ t,
      pass (quietCluster samplePods) [] = (Ret tt, t)
      ∧ filter isEventsCreate t
        = [EventsCreate "default" (podEvent worker1);
           EventsCreate "default" (podEvent compliantPod);
           EventsCreate "default" (podEvent ownedPod);
           EventsCreate "default" (podEvent plainPod)]
      ∧ or_Kind (InvolvedObject (podEvent ownedPod)) = "ReplicaSet"
      ∧ or_Name (InvolvedObject (podEvent ownedPod)) = "api"
      ∧ or_Name (InvolvedObject (podEvent worker1)) = "worker-1".
Proof.
  split; [reflexivity|].
  destruct (C9_event_per_pod (quietCluster samplePods) [] samplePods eq_refl)
    as ((t & Hrun & Hev) & Hown & Hself).
  exists t. split_and!.
  - exact Hrun.
  - exact Hev.
  - by rewrite (Hown ownedPod _ [] eq_refl).
  - by rewrite (Hown ownedPod _ [] eq_refl).
  - by rewrite (Hself worker1 eq_refl).
Defined.

Lemma filter_isPodsDelete_podTrace cs pod h :
  filter isPodsDelete (podTrace cs pod h)
  = if needsDelete pod
    then [PodsDelete (pod_Namespace pod) (pod_Name pod)] else []
  .
Proof.
  unfold podTrace. destruct (needsDelete pod); [|done].
  by destruct (Delete cs _ _ _).
Qed.

Lemma filter_isInc_podTrace cs pod h :
  filter (isInc ctrDeletes) (podTrace cs pod h)
  = if needsDelete pod
    then [Inc ctrDeletes (pod_Namespace pod) (pod_Name pod)] else [].
Proof.
  unfold podTrace. destruct (needsDelete pod); [|done].
  by destruct (Delete cs _ _ _).
Qed.

Lemma filter_podsTrace (P : Effect → Prop) `{!∀ e, Decision (P e)}
    (g : Pod → Effect) cs pods h :
  (∀ pod h', filter P (podTrace cs pod h')
             = if needsDelete pod then [g pod] else []) →
  filter P (podsTrace cs pods h)
  = g <$> filter (λ pod, needsDelete pod = true) pods.
Proof.
  intros Hp. revert h. induction pods as [|pod rest IH]; intros h; [done|].
  simpl. rewrite filter_app, Hp, IH, filter_cons.
  by destruct (needsDelete pod).
Qed.

Lemma podsTrace_app cs pods1 pods2 h :
  podsTrace cs (pods1 ++ pods2) h
  = podsTrace cs pods1 h ++ podsTrace cs pods2 (h ++ podsTrace cs pods1 h).
Proof.
  revert h. induction pods1 as [|pod rest IH]; intros h; simpl.
  - by rewrite app_nil_r.
  - by rewrite IH, <-!app_assoc.
Qed.

Lemma podTrace_head cs pod h :
  ∃ t, podTrace cs pod h = EventsCreate (pod_Namespace pod) (podEvent pod) :: t.
Proof. unfold podTrace. destruct (needsDelete pod); by eexists. Qed.

(** C10: while processing an annotated pod without matching volume, the
    reconciler increments the deletion counter at the pod's namespace and
    name before it issues the delete call.  The increment therefore happens
    exactly once whatever the delete call returns; an error from the call
    adds one error log entry and nothing else, and the loop goes on with the
    next pod: whether or not the delete failed, the loop and the pass
    return normally, the event of the next pod follows at once, and every
    remaining pod of the listing gets its event and, when it is annotated
    and not compliant, its own delete call. *)
Theorem C10_counter_before_delete
    (cs : Cluster) (pod : Pod) (rest : list Pod) (h : History) :
  index (pod_Annotations pod) label ≠ "" →
  compliant pod = false →
  let ns := pod_Namespace pod in
  let name := pod_Name pod in
  let before (h0 : History) :=
    h0 ++ [EventsCreate ns (podEvent pod);
           Log Info "deleting pod; CA env and mount not found";
           Inc ctrDeletes ns name] in
  let after (h0 : History) :=
    match Delete cs (before h0) ns name with
    | Some _ => [Log Error "error deleting pod"]
    | None => []
    end in
  let handled (h0 : History) := before h0 ++ PodsDelete ns name :: after h0 in
  let events (pods : list Pod) :=
    (λ q, EventsCreate (pod_Namespace q) (podEvent q)) <$> pods in
  let deletes (pods : list Pod) :=
    (λ q, PodsDelete (pod_Namespace q) (pod_Name q))
    <$> filter (λ q, needsDelete q = true) pods in
  processPod cs pod h = (Ret tt, handled h)
  ∧ counter ctrDeletes ns name (before h) = counter ctrDeletes ns name h + 1
  ∧ occurrences (PodsDelete ns name) (before h)
    = occurrences (PodsDelete ns name) h
  ∧ counter ctrDeletes ns name (handled h) = counter ctrDeletes ns name h + 1
  ∧ (∃ t,
       rangePods cs (pod :: rest) h = (Ret tt, handled h ++ t)
       ∧ filter isEventsCreate t = events rest
       ∧ filter isPodsDelete t = deletes rest
       ∧ ∀ next rest', rest = next :: rest' →
           ∃ t', t = EventsCreate (pod_Namespace next) (podEvent next) :: t')
  ∧ (∀ hl pre,
       List cs hl "" = inr (pre ++ pod :: rest) →
       ∃ t0 t,
         pass cs hl = (Ret tt, handled (hl ++ PodsList "" :: t0) ++ t)
         ∧ filter isEventsCreate t0 = events pre
         ∧ filter isPodsDelete t0 = deletes pre
         ∧ filter isEventsCreate t = events rest
         ∧ filter isPodsDelete t = deletes rest).
Proof.
  intros Hann Hnc ns name before after handled events deletes.
  assert (Hneed : needsDelete pod = true) by (by apply needsDelete_true).
  assert (Htrace : ∀ h0, h0 ++ podTrace cs pod h0 = handled h0).
  { intros h0. unfold podTrace. rewrite Hneed.
    unfold handled, before, after. by rewrite <-app_assoc. }
  assert (Hrun : processPod cs pod h = (Ret tt, handled h)).
  { by rewrite processPod_run, Htrace. }
  assert (Hdel : ∀ pods h0, filter isPodsDelete (podsTrace cs pods h0)
                            = deletes pods).
  { intros pods h0. apply filter_podsTrace. intros q h'.
    apply filter_isPodsDelete_podTrace. }
  split_and!.
  - exact Hrun.
  - unfold counter, before. rewrite occurrences_app, !occurrences_cons.
    rewrite !decide_False by discriminate. by rewrite decide_True.
  - unfold before. rewrite occurrences_app, !occurrences_cons.
    rewrite !decide_False by discriminate. unfold occurrences. simpl. lia.
  - unfold counter, handled, before, after.
    rewrite !occurrences_app, !occurrences_cons.
    destruct (Delete cs _ _ _); rewrite ?occurrences_cons;
      rewrite !decide_False by discriminate; rewrite decide_True by done;
      unfold occurrences; simpl; lia.
  - exists (podsTrace cs rest (handled h)). split_and!.
    + rewrite rangePods_run. cbn [podsTrace].
      by rewrite app_assoc, Htrace.
    + apply filter_isEventsCreate_podsTrace.
    + apply Hdel.
    + intros next rest' ->. cbn [podsTrace].
      destruct (podTrace_head cs next (handled h)) as [t' ->].
      by eexists.
  - intros hl pre Hl.
    exists (podsTrace cs pre (hl ++ [PodsList ""])),
      (podsTrace cs rest
         (handled (hl ++ PodsList "" :: podsTrace cs pre (hl ++ [PodsList ""])))).
    split_and!.
    + rewrite (pass_run_ok cs _ hl Hl), podsTrace_app. cbn [podsTrace].
      replace (hl ++ PodsList "" :: podsTrace cs pre (hl ++ [PodsList ""]))
        with ((hl ++ [PodsList ""]) ++ podsTrace cs pre (hl ++ [PodsList ""]))
        by (by rewrite <-app_assoc).
      set (h0 := (hl ++ [PodsList ""]) ++ podsTrace cs pre (hl ++ [PodsList ""])).
      rewrite <-(Htrace h0). unfold h0. by rewrite <-!app_assoc.
    + apply filter_isEventsCreate_podsTrace.
    + apply Hdel.
    + apply filter_isEventsCreate_podsTrace.
    + apply Hdel.
Qed.

Lemma C10_counter_before_delete_witness :
  index (pod_Annotations worker1) label ≠ ""
  ∧ compliant worker1 = false
  ∧ Delete (stubbornCluster [worker1; ownedPod])
      [PodsList ""; EventsCreate "default" (podEvent worker1);
       Log Info "deleting pod; CA env and mount not found";
       Inc ctrDeletes "default" "worker-1"] "default" "worker-1"
    = Some "forbidden"
  ∧ processPod (stubbornCluster [worker1; ownedPod]) worker1 []
    = (Ret tt,
       [EventsCreate "default" (podEvent worker1);
        Log Info "deleting pod; CA env and mount not found";
        Inc ctrDeletes "default" "worker-1";
        PodsDelete "default" "worker-1";
        Log Error "error deleting pod"])
  ∧ List (stubbornCluster [worker1; ownedPod]) [] ""
    = inr ([] ++ worker1 :: [ownedPod])
  ∧ ∃ t,
      pass (stubbornCluster [worker1; ownedPod]) []
      = (Ret tt,
         [PodsList "";
          EventsCreate "default" (podEvent worker1);
          Log Info "deleting pod; CA env and mount not found";
          Inc ctrDeletes "default" "worker-1";
          PodsDelete "default" "worker-1";
          Log Error "error deleting pod"] ++ t)
      ∧ filter isEventsCreate t = [EventsCreate "default" (podEvent ownedPod)]
      ∧ filter isPodsDelete t = [PodsDelete "default" "api-7d9f"].
Proof.
  assert (H1 : index (pod_Annotations worker1) label ≠ "") by discriminate.
  assert (H2 : compliant worker1 = false) by reflexivity.
  assert (H3 : List (stubbornCluster [worker1; ownedPod]) [] ""
               = inr ([] ++ worker1 :: [ownedPod])) by reflexivity.
  destruct (C10_counter_before_delete (stubbornCluster [worker1; ownedPod])
              worker1 [ownedPod] [] H1 H2) as (Hrun & _ & _ & _ & _ & Hpass).
  destruct (Hpass [] [] H3) as (t0 & t & Hp & Hev0 & _ & Hev & Hdel).
  destruct t0 as [|e t0].
  - split_and!; [exact H1 | exact H2 | reflexivity | exact Hrun | exact H3 |].
    exists t. split_and!; [exact Hp | exact Hev | exact Hdel].
  - exfalso.
    apply (f_equal (λ r : Outcome unit * History, r.2 !! 1)) in Hp.
    rewrite (pass_run_ok _ _ [] H3) in Hp. simpl in Hp.
    destruct e; simplify_eq/=.
Defined.

(** C7 (as stated, refuted): against a cluster whose listing fails, the
    reconciler observed for two passes has exited the process with status 1
    during the first pass; there is no second listing. *)
Lemma C7_counterexample :
  List failingCluster [Sleep 5] "" = inl "connection refused"
  ∧ reconciler failingCluster 2 []
    = (Exit 1, [Sleep 5; PodsList ""; Log Fatal "error listing pods"])
  ∧ occurrences (PodsList "")
      (reconciler failingCluster 2 []).2 = 1.
Proof. split_and!; reflexivity. Qed.

(** C7 (amended): when the cluster-wide pod listing of a pass fails, no pod
    is processed, the failure is logged at fatal level and the process exits
    with status 1; however long the loop is observed, nothing follows: there
    is no further pass. *)
Theorem C7_listing_failure_exits
    (cs : Cluster) (n : nat) (f : bool) (h : History) (e : error) :
  let h0 := if f then h ++ [Sleep 60] else h in
  List cs h0 "" = inl e →
  pass cs h0 = (Exit 1, h0 ++ [PodsList ""; Log Fatal "error listing pods"])
  ∧ loop cs (S n) f h
    = (Exit 1, h0 ++ [PodsList ""; Log Fatal "error listing pods"]).
Proof.
  intros h0 Hl. pose proof (pass_run_fail cs e h0 Hl) as Hp.
  split; [exact Hp|].
  simpl. unfold mbind, M_bind.
  destruct f; unfold sleep, emit, mret, M_ret; fold h0; by rewrite Hp.
Qed.

Lemma C7_listing_failure_exits_witness :
  List failingCluster [Sleep 5] "" = inl "connection refused"
  ∧ loop failingCluster 3 false [Sleep 5]
    = (Exit 1, [Sleep 5; PodsList ""; Log Fatal "error listing pods"]).
Proof.
  split; [reflexivity|].
  exact (proj2 (C7_listing_failure_exits failingCluster 2 false [Sleep 5]
                  "connection refused" eq_refl)).
Defined.

(** * The helper [first] *)

(** X1: [first] yields the empty string exactly when every argument is
    empty, which includes the call without arguments. *)
Theorem X1_first_empty_iff (ss : list string) :
  first ss = "" ↔ Forall (λ s, s = "") ss.
Proof.
  induction ss as [|s rest IH]; simpl.
  - split; [constructor|done].
  - destruct (decide (s ≠ "")) as [Hs|Hs].
    + split; [done|]. intros [? _]%Forall_cons. done.
    + apply dec_stable in Hs. rewrite IH, Forall_cons.
      split; [by intros H; split | by intros [_ H]].
Qed.

Lemma X1_first_empty_iff_witness :
  Forall (λ s, s = "") [""; ""; ""] ∧ first [""; ""; ""] = "".
Proof.
  assert (H : Forall (λ s, s = "") [""; ""; ""]) by (by repeat constructor).
  split; [exact H|].
  exact (proj2 (X1_first_empty_iff [""; ""; ""]) H).
Defined.

(** X2: [first] yields the first non-empty argument: whatever follows it is
    not looked at, and the empty strings before it are skipped. *)
Theorem X2_first_skips_empty (pre post : list string) (s : string) :
  Forall (λ x, x = "") pre →
  s ≠ "" →
  first (pre ++ s :: post) = s.
Proof.
  intros Hpre Hs. induction Hpre as [|x pre -> _ IH]; simpl.
  - by rewrite decide_True.
  - exact IH.
Qed.

Lemma X2_first_skips_empty_witness :
  Forall (λ x, x = "") [""; ""]
  ∧ "ca-secret" ≠ ""
  ∧ first ([""; ""] ++ "ca-secret" :: ["other"; ""]) = "ca-secret".
Proof.
  assert (H1 : Forall (λ x, x = "") [""; ""]) by (by repeat constructor).
  assert (H2 : "ca-secret" ≠ "") by discriminate.
  split_and!; [exact H1 | exact H2 |].
  exact (X2_first_skips_empty [""; ""] ["other"; ""] "ca-secret" H1 H2).
Defined.

(** X3: [first] over a concatenation is [first] of the two partial
    results: the second list matters only when the first has no non-empty
    string. *)
Theorem X3_first_app (ss tt : list string) :
  first (ss ++ tt) = first [first ss; first tt].
Proof.
  induction ss as [|s rest IH]; simpl.
  - destruct (decide (first tt ≠ "")) as [|Ht]; [done|].
    by apply dec_stable in Ht.
  - destruct (decide (s ≠ "")) as [Hs|Hs].
    + by rewrite decide_True.
    + exact IH.
Qed.

(** * The admission handler as a whole *)

(** X5: the handler never rejects and never ends the process.  Whatever
    the decoding yields and whatever happened before, it returns either the
    decoding error or a response with [Allowed] set, and its effects are
    log lines and increments of the mutation counter only: no call to the
    cluster, no sleep, no increment of the deletion counter. *)
Theorem X5_podsHandler_never_denies (decoded : error + Pod) (h : History) :
  ∃ r t,
    podsHandler decoded h = (Ret r, h ++ t)
    ∧ match r with
      | inl err => decoded = inl err
      | inr res => Allowed res = true ∧ ∃ pod, decoded = inr pod
      end
    ∧ Forall (λ e, match e with
                   | Log _ _ | Inc ctrPatches _ _ => True
                   | _ => False
                   end) t.
Proof.
  destruct decoded as [err|pod].
  - exists (inl err), [Log Error "could not deserialize pod spec"].
    split_and!; [done..|]. by repeat constructor.
  - destruct (decide (index (pod_Annotations pod) label = "")) as [He|Hne].
    + exists (inr {| Allowed := true; adm_Patch := None;
                     PatchType := None; Result := None |}),
        [Log Info "allowing"].
      split_and!; [by apply podsHandler_allow | done | by eexists |].
      by repeat constructor.
    + exists (inr {| Allowed := true; adm_Patch := Some (buildPatch pod);
                     PatchType := Some PatchTypeJSONPatch;
                     Result := Some {| st_Message := "modified" |} |}),
        [Log Info "will patch";
         Inc ctrPatches (pod_Namespace pod) (pod_Name pod);
         Log Info "patching"].
      split_and!; [by apply podsHandler_patch | done | by eexists |].
      by repeat constructor.
Qed.

(** X6: the mutation counter at labels (ns, name) rises by one exactly
    when the handler returns a patch for the pod with that namespace and
    name; it stays as it was when the pod is allowed unchanged, when the pod
    has another identity and when decoding failed.  The deletion counter is
    never changed by the handler. *)
Theorem X6_mutation_counter
    (decoded : error + Pod) (h : History) (ns name : string) :
  let r := podsHandler decoded h in
  counter ctrPatches ns name r.2
  = counter ctrPatches ns name h
    + match decoded, returnedPatch r with
      | inr pod, Some _ => if decide (podKey pod = (ns, name)) then 1 else 0
      | _, _ => 0
      end
  ∧ counter ctrDeletes ns name r.2 = counter ctrDeletes ns name h.
Proof.
  unfold counter. destruct decoded as [err|pod]; cbv zeta.
  - unfold podsHandler, mbind, M_bind, logError, emit, mret, M_ret.
    cbn [fst snd]. rewrite !occurrences_app, !occurrences_cons.
    rewrite !decide_False by discriminate. by unfold occurrences.
  - destruct (decide (index (pod_Annotations pod) label = "")) as [He|Hne].
    + rewrite (podsHandler_allow pod h He). unfold returnedPatch.
      cbn [fst snd adm_Patch]. rewrite !occurrences_app, !occurrences_cons.
      rewrite !decide_False by discriminate. by unfold occurrences.
    + rewrite (podsHandler_patch pod h Hne). unfold returnedPatch, podKey.
      cbn [fst snd adm_Patch]. rewrite !occurrences_app, !occurrences_cons.
      rewrite !(decide_False (P := Log _ _ = _)) by discriminate.
      rewrite (decide_False (P := Inc ctrPatches _ _ = Inc ctrDeletes _ _))
        by discriminate.
      split; [|by unfold occurrences].
      destruct (decide ((pod_Namespace pod, pod_Name pod) = (ns, name)))
        as [[= <- <-]|Hk].
      * rewrite decide_True by done. by unfold occurrences.
      * rewrite decide_False by (intros [=]; by subst). by unfold occurrences.
Qed.

(** * More on the shape of the patch *)

Lemma Forall_concat_imap {A B} (P : B → Prop) (f : nat → A → list B)
    (l : list A) :
  (∀ j x, l !! j = Some x → Forall P (f j x)) → Forall P (concat (imap f l)).
Proof.
  revert f. induction l as [|x l IH]; intros f Hf; [constructor|].
  rewrite imap_cons. simpl. apply Forall_app. split.
  - by apply (Hf 0).
  - apply IH. intros j y Hj. by apply (Hf (S j)).
Qed.

(** X7: the patch only ever adds: every operation of the patch of any pod
    has the operation kind add, so the handler never removes or replaces a
    field of the submitted pod. *)
Theorem X7_patch_only_adds (pod : Pod) :
  Forall (λ op, Op op = "add") (buildPatch pod).
Proof.
  rewrite buildPatch_spec. apply Forall_app. split.
  - unfold volumeOps. destruct (pod_Volumes pod); by repeat constructor.
  - apply Forall_concat_imap. intros j ctr _. rewrite containerOps_eq.
    destruct (ctr_Env ctr), (decide (len (ctr_VolumeMounts ctr) = 0));
      by repeat constructor.
Qed.

Lemma length_containerOps i ctr :
  length (containerOps i ctr) = containerOpCount ctr.
Proof.
  rewrite containerOps_eq. unfold containerOpCount.
  by destruct (ctr_Env ctr), (decide (len (ctr_VolumeMounts ctr) = 0)).
Qed.

Lemma length_concat_imap_sum {A B} (f : nat → A → list B) (g : A → nat)
    (l : list A) :
  (∀ j x, length (f j x) = g x) →
  length (concat (imap f l)) = sum_list (g <$> l).
Proof.
  intros Hf. revert f Hf. induction l as [|x l IH]; intros f Hf; [done|].
  rewrite imap_cons.
  change (sum_list (g <$> x :: l)) with (g x + sum_list (g <$> l)).
  cbn [concat]. rewrite length_app, Hf. f_equal.
  apply IH. intros j y. apply Hf.
Qed.

Lemma containerOpCount_bounds ctr : 3 ≤ containerOpCount ctr ≤ 5.
Proof.
  unfold containerOpCount.
  destruct (ctr_Env ctr), (decide (len (ctr_VolumeMounts ctr) = 0)); lia.
Qed.

Lemma sum_containerOpCount_bounds (ctrs : list Container) :
  3 * length ctrs ≤ sum_list (containerOpCount <$> ctrs) ≤ 5 * length ctrs.
Proof.
  induction ctrs as [|ctr rest IH]; [done|].
  change (sum_list (containerOpCount <$> ctr :: rest))
    with (containerOpCount ctr + sum_list (containerOpCount <$> rest)).
  change (length (ctr :: rest)) with (S (length rest)).
  pose proof (containerOpCount_bounds ctr). lia.
Qed.

(** X8: the size of the patch.  It has one operation for the volume, one
    more when the pod has no volume list, and per container three appends
    plus one init for a nil environment and one for absent volume mounts;
    so a pod with N containers gets between 1 + 3N and 2 + 5N operations. *)
Theorem X8_patch_length (pod : Pod) :
  let ctrs := elems (pod_Containers pod) in
  length (buildPatch pod)
  = (match pod_Volumes pod with None => 2 | Some _ => 1 end)
    + sum_list (containerOpCount <$> ctrs)
  ∧ 1 + 3 * length ctrs ≤ length (buildPatch pod) ≤ 2 + 5 * length ctrs.
Proof.
  intros ctrs.
  assert (Hlen : length (buildPatch pod)
    = (match pod_Volumes pod with None => 2 | Some _ => 1 end)
      + sum_list (containerOpCount <$> ctrs)).
  { rewrite buildPatch_spec, length_app. f_equal.
    - unfold volumeOps. by destruct (pod_Volumes pod).
    - apply length_concat_imap_sum. intros j ctr. apply length_containerOps. }
  split; [exact Hlen|]. rewrite Hlen.
  pose proof (sum_containerOpCount_bounds ctrs).
  destruct (pod_Volumes pod); lia.
Qed.

(** X9: the volume array.  The patch contains an init operation for
    /spec/volumes exactly when the pod's volume list is nil; the patch then
    starts with it, directly followed by the volume add.  When the list is
    non-nil, even if empty, the patch starts with the volume add.  A pod
    without containers gets nothing else. *)
Theorem X9_volumes_init (pod : Pod) :
  let s := index (pod_Annotations pod) label in
  filter (λ op, Path op = "/spec/volumes") (buildPatch pod)
  = match pod_Volumes pod with None => [volumesInit] | Some _ => [] end
  ∧ (∃ rest,
       buildPatch pod
       = match pod_Volumes pod with
         | None => volumesInit :: volumeAdd s :: rest
         | Some _ => volumeAdd s :: rest
         end
       ∧ (elems (pod_Containers pod) = [] → rest = [])).
Proof.
  intros s. split.
  - rewrite buildPatch_spec, filter_app, filter_concat_imap.
    rewrite (concat_imap_nil _ (elems (pod_Containers pod))), app_nil_r.
    + unfold volumeOps. destruct (pod_Volumes pod); cbn [app]; by filter_paths.
    + intros j ctr _. rewrite containerOps_eq, !filter_app.
      destruct (ctr_Env ctr), (decide (len (ctr_VolumeMounts ctr) = 0));
        by filter_paths.
  - exists (concat (imap containerOps (elems (pod_Containers pod)))).
    split.
    + rewrite buildPatch_spec. unfold volumeOps.
      by destruct (pod_Volumes pod).
    + by intros ->.
Qed.

Lemma X9_volumes_init_witness :
  elems (pod_Containers noContainerPod) = []
  ∧ pod_Volumes noContainerPod = None
  ∧ buildPatch noContainerPod = [volumesInit; volumeAdd "ca-secret"].
Proof.
  split_and!; [reflexivity..|].
  destruct (X9_volumes_init noContainerPod) as (_ & rest & Heq & Hrest).
  rewrite Heq, (Hrest eq_refl). reflexivity.
Defined.

Lemma filter_mountsInit i j ctr :
  filter (λ op, Path op = Sprintf_d "/spec/containers/" i "/volumeMounts")
    (containerOps j ctr)
  = if decide (i = j)
    then if decide (len (ctr_VolumeMounts ctr) = 0)
         then [mountsInit i] else []
    else [].
Proof. filter_ops i j ctr. Qed.

(** X10: the volume-mount array of a container.  The patch holds an init
    operation for it exactly when the container has no volume mounts (nil or
    empty list), and then exactly one, standing before the container's
    other operations and so before its mount append. *)
Theorem X10_mounts_init (pod : Pod) (i : nat) (ctr : Container) :
  elems (pod_Containers pod) !! i = Some ctr →
  filter (λ op, Path op = Sprintf_d "/spec/containers/" i "/volumeMounts")
    (buildPatch pod)
  = (if decide (len (ctr_VolumeMounts ctr) = 0) then [mountsInit i] else [])
  ∧ (len (ctr_VolumeMounts ctr) = 0 →
     ∃ pre post,
       buildPatch pod
       = pre
         ++ mountsInit i
            :: match ctr_Env ctr with None => [envInit i] | Some _ => [] end
         ++ [envAppendSSL i; envAppendNode i; mountAppend i]
         ++ post).
Proof.
  intros Hi. split.
  - rewrite (filter_buildPatch_container _
      (λ i ctr, if decide (len (ctr_VolumeMounts ctr) = 0)
                then [mountsInit i] else []) pod i).
    + by rewrite Hi.
    + apply filter_containers_volumeOps.
    + intros j c. apply filter_mountsInit.
  - intros Hm. rewrite buildPatch_spec.
    apply list_elem_of_split_length in Hi as (l1 & l2 & Hl12 & Hlen).
    rewrite Hl12, imap_app, concat_app, imap_cons. simpl.
    rewrite containerOps_eq, decide_True, Nat.add_0_r, <-Hlen by done.
    exists (volumeOps pod ++ concat (imap containerOps l1)),
      (concat (imap ((λ n, containerOps (i + n)) ∘ S) l2)).
    by rewrite <-!app_assoc.
Qed.

Lemma X10_mounts_init_witness :
  elems (pod_Containers worker1) !! 1 = Some (bareContainer "b")
  ∧ len (ctr_VolumeMounts (bareContainer "b")) = 0
  ∧ filter (λ op, Path op = Sprintf_d "/spec/containers/" 1 "/volumeMounts")
      (buildPatch worker1)
    = [mountsInit 1].
Proof.
  split_and!; [reflexivity..|].
  exact (proj1 (X10_mounts_init worker1 1 (bareContainer "b") eq_refl)).
Defined.

Lemma containerOps_paths i ctr :
  Forall (λ op, ∃ suffix, suffix ∈ containerSuffixes
                          ∧ Path op = Sprintf_d "/spec/containers/" i suffix)
    (containerOps i ctr).
Proof.
  assert (∀ suffix, suffix ∈ containerSuffixes → ∀ op,
            Path op = Sprintf_d "/spec/containers/" i suffix →
            ∃ suffix, suffix ∈ containerSuffixes
                      ∧ Path op = Sprintf_d "/spec/containers/" i suffix)
    as Hin by eauto.
  assert ("/env" ∈ containerSuffixes) by (by left).
  assert ("/env/-" ∈ containerSuffixes) by (right; by left).
  assert ("/volumeMounts" ∈ containerSuffixes) by (do 2 right; by left).
  assert ("/volumeMounts/-" ∈ containerSuffixes) by (do 3 right; by left).
  rewrite containerOps_eq.
  destruct (ctr_Env ctr), (decide (len (ctr_VolumeMounts ctr) = 0));
    cbn [app]; repeat (apply Forall_cons; split); try apply Forall_nil_2;
    eauto.
Qed.

Lemma Sprintf_d_suffix_inv pre i j suffix suffix' :
  suffix ∈ containerSuffixes → suffix' ∈ containerSuffixes →
  Sprintf_d pre i suffix = Sprintf_d pre j suffix' →
  i = j ∧ suffix = suffix'.
Proof.
  unfold containerSuffixes. intros Hs Hs' Heq.
  repeat (apply elem_of_cons in Hs as [->|Hs]);
    try (by apply elem_of_nil in Hs);
    repeat (apply elem_of_cons in Hs' as [->|Hs']);
    try (by apply elem_of_nil in Hs');
    first [ split; [by eapply Sprintf_d_inj | reflexivity]
          | exfalso; revert Heq; apply Sprintf_d_ne; reflexivity ].
Qed.

(** X11: the patch stays inside the pod: every path is /spec/volumes,
    /spec/volumes/- or, for a container index below the number of
    containers, one of env, env/-, volumeMounts and volumeMounts/- under
    /spec/containers/<index>. *)
Theorem X11_patch_paths_in_range (pod : Pod) :
  Forall (λ op,
            Path op = "/spec/volumes"
            ∨ Path op = "/spec/volumes/-"
            ∨ ∃ i suffix,
                i < len (pod_Containers pod)
                ∧ suffix ∈ containerSuffixes
                ∧ Path op = Sprintf_d "/spec/containers/" i suffix)
    (buildPatch pod).
Proof.
  rewrite buildPatch_spec. apply Forall_app. split.
  - unfold volumeOps.
    destruct (pod_Volumes pod); cbn [app];
      repeat (apply Forall_cons; split); try apply Forall_nil_2;
      first [by left | right; by left].
  - apply Forall_concat_imap. intros j ctr Hj.
    apply lookup_lt_Some in Hj.
    eapply Forall_impl; [apply containerOps_paths|].
    intros op (suffix & Hs & Hp). right; right. exists j, suffix.
    split_and!; [|done..]. by destruct (pod_Containers pod).
Qed.

(** X12: the path of a per-container operation determines its container:
    operations built for two containers share a path only if the two
    indices are the same, so no operation of one container can land in
    another. *)
Theorem X12_container_paths_disjoint
    (i j : nat) (ctr ctr' : Container) (op op' : p) :
  op ∈ containerOps i ctr →
  op' ∈ containerOps j ctr' →
  Path op = Path op' →
  i = j.
Proof.
  intros Hop Hop' Heq.
  pose proof (containerOps_paths i ctr) as Hi.
  pose proof (containerOps_paths j ctr') as Hj.
  rewrite Forall_forall in Hi, Hj.
  destruct (Hi op Hop) as (s & Hs & Hp).
  destruct (Hj op' Hop') as (s' & Hs' & Hp').
  rewrite Hp, Hp' in Heq.
  by destruct (Sprintf_d_suffix_inv _ _ _ _ _ Hs Hs' Heq).
Qed.

Lemma X12_container_paths_disjoint_witness :
  envAppendSSL 1 ∈ containerOps 1 (bareContainer "b")
  ∧ envAppendNode 1 ∈ containerOps 1 fullContainer
  ∧ Path (envAppendSSL 1) = Path (envAppendNode 1)
  ∧ 1 = 1.
Proof.
  assert (H1 : envAppendSSL 1 ∈ containerOps 1 (bareContainer "b"))
    by (do 2 right; by left).
  assert (H2 : envAppendNode 1 ∈ containerOps 1 fullContainer)
    by (right; by left).
  assert (H3 : Path (envAppendSSL 1) = Path (envAppendNode 1))
    by reflexivity.
  split_and!; [exact H1 | exact H2 | exact H3 |].
  exact (X12_container_paths_disjoint 1 1 _ _ _ _ H1 H2 H3).
Defined.

(** * More on the reconciler *)

(** X13: in one pass the delete calls are exactly those for the listed pods
    that are annotated and not compliant, one per such pod and in the order
    of the listing, each by the pod's namespace and name; the increments of
    the deletion counter follow the same list.  This holds for any listing,
    also one that repeats a pod. *)
Theorem X13_deletes_follow_listing
    (cs : Cluster) (h : History) (pods : list Pod) :
  List cs h "" = inr pods →
  ∃ t,
    pass cs h = (Ret tt, h ++ t)
    ∧ filter isPodsDelete t
      = (λ pod, PodsDelete (pod_Namespace pod) (pod_Name pod))
        <$> filter (λ pod, needsDelete pod = true) pods
    ∧ filter (isInc ctrDeletes) t
      = (λ pod, Inc ctrDeletes (pod_Namespace pod) (pod_Name pod))
        <$> filter (λ pod, needsDelete pod = true) pods.
Proof.
  intros Hl. exists (PodsList "" :: podsTrace cs pods (h ++ [PodsList ""])).
  split; [by apply pass_run_ok|].
  rewrite !filter_cons_False by (by intros ?). split.
  - apply filter_podsTrace. intros pod h'.
    apply filter_isPodsDelete_podTrace.
  - apply filter_podsTrace. intros pod h'. apply filter_isInc_podTrace.
Qed.

Lemma X13_deletes_follow_listing_witness :
  List (stubbornCluster samplePods) [] "" = inr samplePods
  ∧ ∃ t,
      pass (stubbornCluster samplePods) [] = (Ret tt, t)
      ∧ filter isPodsDelete t
        = [PodsDelete "default" "worker-1"; PodsDelete "default" "api-7d9f"].
Proof.
  split; [reflexivity|].
  destruct (X13_deletes_follow_listing (stubbornCluster samplePods) []
              samplePods eq_refl) as (t & Hrun & Hdel & _).
  exists t. split; [exact Hrun|]. rewrite Hdel. reflexivity.
Defined.

Lemma podTrace_ext cs1 cs2 pod h :
  (∀ h' ns name, Delete cs1 h' ns name = Delete cs2 h' ns name) →
  podTrace cs1 pod h = podTrace cs2 pod h.
Proof. intros Hd. unfold podTrace. by rewrite Hd. Qed.

Lemma podsTrace_ext cs1 cs2 pods h :
  (∀ h' ns name, Delete cs1 h' ns name = Delete cs2 h' ns name) →
  podsTrace cs1 pods h = podsTrace cs2 pods h.
Proof.
  intros Hd. revert h. induction pods as [|pod rest IH]; intros h; [done|].
  simpl. by rewrite (podTrace_ext cs1 cs2 pod h Hd), IH.
Qed.

Lemma pass_ext cs1 cs2 h :
  (∀ h' ns, List cs1 h' ns = List cs2 h' ns) →
  (∀ h' ns name, Delete cs1 h' ns name = Delete cs2 h' ns name) →
  pass cs1 h = pass cs2 h.
Proof.
  intros Hl Hd. destruct (List cs2 h "") as [e|pods] eqn:Hres.
  - rewrite (pass_run_fail cs2 e h Hres).
    apply (pass_run_fail cs1 e). by rewrite Hl.
  - rewrite (pass_run_ok cs2 pods h Hres).
    rewrite <-(podsTrace_ext cs1 cs2) by done.
    apply pass_run_ok. by rewrite Hl.
Qed.

(** X14: the result of creating an event is ignored.  Two clusters that
    answer listings and deletes alike make the reconciler behave alike, pass
    after pass, however differently they answer the event creations. *)
Theorem X14_event_result_ignored (cs1 cs2 : Cluster) (n : nat) (h : History) :
  (∀ h' ns, List cs1 h' ns = List cs2 h' ns) →
  (∀ h' ns name, Delete cs1 h' ns name = Delete cs2 h' ns name) →
  reconciler cs1 n h = reconciler cs2 n h.
Proof.
  intros Hl Hd.
  assert (Hloop : ∀ f h', loop cs1 n f h' = loop cs2 n f h').
  { induction n as [|n IH]; intros f h'; [done|].
    simpl. unfold mbind, M_bind.
    destruct f; unfold sleep, emit, mret, M_ret;
      rewrite (pass_ext cs1 cs2 _ Hl Hd);
      (destruct (pass cs2 _) as [[[]|code] h1]; [apply IH|done]). }
  unfold reconciler, mbind, M_bind. simpl. apply Hloop.
Qed.

Lemma X14_event_result_ignored_witness :
  (∀ h' ns, List (quietCluster samplePods) h' ns
            = List (eventlessCluster samplePods) h' ns)
  ∧ (∀ h' ns name, Delete (quietCluster samplePods) h' ns name
                   = Delete (eventlessCluster samplePods) h' ns name)
  ∧ Create (quietCluster samplePods) [] "default" (podEvent worker1)
    ≠ Create (eventlessCluster samplePods) [] "default" (podEvent worker1)
  ∧ reconciler (quietCluster samplePods) 2 []
    = reconciler (eventlessCluster samplePods) 2 [].
Proof.
  split_and!; [done | done | discriminate |].
  exact (X14_event_result_ignored (quietCluster samplePods)
           (eventlessCluster samplePods) 2 []
           (λ _ _, eq_refl) (λ _ _ _, eq_refl)).
Defined.

Lemma filter_isSchedule_podsTrace cs pods h :
  filter isSchedule (podsTrace cs pods h) = [].
Proof.
  revert h. induction pods as [|pod rest IH]; intros h; [done|].
  simpl. rewrite filter_app, IH, app_nil_r. unfold podTrace.
  destruct (needsDelete pod); [|done]. by destruct (Delete cs _ _ _).
Qed.

Lemma loop_schedule cs n f h :
  (∀ h', ∃ pods, List cs h' "" = inr pods) →
  ∃ t,
    loop cs n f h = (Ret tt, h ++ t)
    ∧ filter isSchedule t
      = match n with
        | 0 => []
        | S m =>
            (if f then [Sleep 60] else [])
            ++ PodsList "" :: concat (replicate m [Sleep 60; PodsList ""])
        end.
Proof.
  intros Hok. revert f h. induction n as [|n IH]; intros f h.
  - exists []. by rewrite app_nil_r.
  - simpl. unfold mbind, M_bind.
    set (h0 := if f then h ++ [Sleep 60] else h).
    assert (Hs : (if f then sleep 60 else mret tt) h = (Ret tt, h0))
      by (by destruct f).
    rewrite Hs. destruct (Hok h0) as [pods Hl].
    rewrite (pass_run_ok cs pods h0 Hl).
    destruct (IH true (h0 ++ PodsList "" ::
                         podsTrace cs pods (h0 ++ [PodsList ""])))
      as (t & Hrun & Hsched).
    exists ((if f then [Sleep 60] else [])
            ++ (PodsList "" :: podsTrace cs pods (h0 ++ [PodsList ""])) ++ t).
    split.
    + rewrite Hrun. unfold h0. destruct f; by rewrite <-?app_assoc.
    + rewrite !filter_app, Hsched, filter_cons_True by done.
      rewrite filter_isSchedule_podsTrace.
      destruct f, n; by rewrite ?filter_cons_True, ?filter_nil by done.
Qed.

Lemma occurrences_later_passes m :
  occurrences (PodsList "") (concat (replicate m [Sleep 60; PodsList ""])) = m.
Proof.
  induction m as [|m IHm]; [done|].
  cbn [replicate concat app].
  rewrite !occurrences_cons, IHm.
  rewrite decide_False by discriminate. by rewrite decide_True.
Qed.

(** X15: while the listing succeeds the reconciler keeps going, whatever
    the event creations and deletes return.  Observed for n passes it has
    not ended the process, it has slept 5 seconds once, before the first
    listing, and 60 seconds before every later listing, and it has listed
    the pods of all namespaces exactly n times. *)
Theorem X15_reconciler_schedule (cs : Cluster) (n : nat) (h : History) :
  (∀ h', ∃ pods, List cs h' "" = inr pods) →
  ∃ t,
    reconciler cs n h = (Ret tt, h ++ t)
    ∧ filter isSchedule t = schedule n
    ∧ occurrences (PodsList "") t = n.
Proof.
  intros Hok.
  destruct (loop_schedule cs n false (h ++ [Sleep 5]) Hok)
    as (t & Hrun & Hsched).
  exists (Sleep 5 :: t).
  assert (Hs : filter isSchedule (Sleep 5 :: t) = schedule n).
  { rewrite filter_cons_True by done. rewrite Hsched. by destruct n. }
  split_and!.
  - unfold reconciler, mbind, M_bind, sleep, emit.
    rewrite Hrun. by rewrite <-app_assoc.
  - exact Hs.
  - assert (Hocc : ∀ l, occurrences (PodsList "") l
                        = occurrences (PodsList "") (filter isSchedule l)).
    { intros l. induction l as [|e l IHl]; [done|].
      rewrite occurrences_cons, filter_cons.
      destruct (decide (isSchedule e)) as [He|He].
      - by rewrite occurrences_cons, IHl.
      - rewrite decide_False, IHl; [done|]. by intros ->. }
    rewrite Hocc, Hs. unfold schedule.
    rewrite occurrences_cons, decide_False by discriminate.
    destruct n as [|m]; [done|].
    rewrite occurrences_cons, decide_True by done.
    by rewrite occurrences_later_passes.
Qed.

Lemma X15_reconciler_schedule_witness :
  (∀ h', ∃ pods, List (stubbornCluster samplePods) h' "" = inr pods)
  ∧ ∃ t,
      reconciler (stubbornCluster samplePods) 3 [] = (Ret tt, t)
      ∧ filter isSchedule t
        = [Sleep 5; PodsList ""; Sleep 60; PodsList ""; Sleep 60; PodsList ""].
Proof.
  assert (Hok : ∀ h', ∃ pods,
            List (stubbornCluster samplePods) h' "" = inr pods)
    by (intros h'; by exists samplePods).
  split; [exact Hok|].
  destruct (X15_reconciler_schedule (stubbornCluster samplePods) 3 [] Hok)
    as (t & Hrun & Hsched & _).
  exists t. split; [exact Hrun | exact Hsched].
Defined.

Lemma loop_attempts cs pods pod n f h :
  (∀ h', List cs h' "" = inr pods) →
  NoDup (podKey <$> pods) →
  pod ∈ pods →
  needsDelete pod = true →
  ∃ t,
    loop cs n f h = (Ret tt, h ++ t)
    ∧ occurrences (PodsDelete (pod_Namespace pod) (pod_Name pod)) t = n
    ∧ occurrences (Inc ctrDeletes (pod_Namespace pod) (pod_Name pod)) t = n.
Proof.
  intros Hl Hnd Hin Hneed. revert f h.
  induction n as [|n IH]; intros f h.
  - exists []. by rewrite app_nil_r.
  - simpl. unfold mbind, M_bind.
    set (h0 := if f then h ++ [Sleep 60] else h).
    assert (Hs : (if f then sleep 60 else mret tt) h = (Ret tt, h0))
      by (by destruct f).
    rewrite Hs, (pass_run_ok cs pods h0 (Hl h0)).
    set (t1 := PodsList "" :: podsTrace cs pods (h0 ++ [PodsList ""])).
    destruct (IH true (h0 ++ t1)) as (t & Hrun & Hd & Hi).
    pose proof (occurrences_podsTrace cs pods (h0 ++ [PodsList ""])
                  (pod_Namespace pod) (pod_Name pod)) as [Hd1 Hi1].
    cbv zeta in Hd1, Hi1.
    change (pod_Namespace pod, pod_Name pod) with (podKey pod) in Hd1, Hi1.
    rewrite (filter_unique_key (λ q, needsDelete q = true)) in Hd1, Hi1
      by done.
    rewrite decide_True in Hd1, Hi1 by done.
    exists ((if f then [Sleep 60] else []) ++ t1 ++ t).
    split_and!.
    + rewrite Hrun. unfold h0. destruct f; by rewrite <-?app_assoc.
    + rewrite !occurrences_app, Hd. unfold t1.
      rewrite occurrences_cons, decide_False, Hd1 by discriminate.
      destruct f; [|done].
      by rewrite occurrences_cons, decide_False by discriminate.
    + rewrite !occurrences_app, Hi. unfold t1.
      rewrite occurrences_cons, decide_False, Hi1 by discriminate.
      destruct f; [|done].
      by rewrite occurrences_cons, decide_False by discriminate.
Qed.

(** X16: the deletion counter counts delete calls, not deleted pods.
    Against a cluster that keeps listing the same pods, an annotated pod
    without matching volume gets one delete call and one increment of its
    counter in every pass, also when each delete fails: after n passes the
    counter has risen by n. *)
Theorem X16_counter_counts_attempts
    (cs : Cluster) (pods : list Pod) (pod : Pod) (n : nat) (h : History) :
  (∀ h', List cs h' "" = inr pods) →
  NoDup (podKey <$> pods) →
  pod ∈ pods →
  index (pod_Annotations pod) label ≠ "" →
  compliant pod = false →
  let ns := pod_Namespace pod in
  let name := pod_Name pod in
  ∃ t,
    reconciler cs n h = (Ret tt, h ++ t)
    ∧ occurrences (PodsDelete ns name) t = n
    ∧ counter ctrDeletes ns name (h ++ t) = counter ctrDeletes ns name h + n.
Proof.
  intros Hl Hnd Hin Hann Hnc ns name.
  assert (Hneed : needsDelete pod = true) by (by apply needsDelete_true).
  destruct (loop_attempts cs pods pod n false (h ++ [Sleep 5])
              Hl Hnd Hin Hneed) as (t & Hrun & Hd & Hi).
  exists (Sleep 5 :: t). split_and!.
  - unfold reconciler, mbind, M_bind, sleep, emit.
    rewrite Hrun. by rewrite <-app_assoc.
  - rewrite occurrences_cons, decide_False by discriminate. exact Hd.
  - unfold counter. rewrite occurrences_app, occurrences_cons.
    rewrite decide_False by discriminate. subst ns name. by rewrite Hi.
Qed.

Lemma X16_counter_counts_attempts_witness :
  (∀ h', List (stubbornCluster samplePods) h' "" = inr samplePods)
  ∧ NoDup (podKey <$> samplePods)
  ∧ worker1 ∈ samplePods
  ∧ index (pod_Annotations worker1) label ≠ ""
  ∧ compliant worker1 = false
  ∧ Delete (stubbornCluster samplePods) [] "default" "worker-1"
    = Some "forbidden"
  ∧ ∃ t,
      reconciler (stubbornCluster samplePods) 3 [] = (Ret tt, t)
      ∧ occurrences (PodsDelete "default" "worker-1") t = 3
      ∧ counter ctrDeletes "default" "worker-1" t = 3.
Proof.
  assert (H1 : ∀ h', List (stubbornCluster samplePods) h' "" = inr samplePods)
    by done.
  assert (H3 : worker1 ∈ samplePods) by (by left).
  assert (H4 : index (pod_Annotations worker1) label ≠ "") by discriminate.
  assert (H5 : compliant worker1 = false) by reflexivity.
  split_and!; [exact H1 | exact samplePods_NoDup | exact H3 | exact H4
              | exact H5 | reflexivity |].
  destruct (X16_counter_counts_attempts (stubbornCluster samplePods)
              samplePods worker1 3 [] H1 samplePods_NoDup H3 H4 H5)
    as (t & Hrun & Hd & Hc).
  exists t. split_and!; [exact Hrun | exact Hd | exact Hc].
Defined.

Lemma reconcilerEffect_podsTrace cs pods h :
  Forall reconcilerEffect (podsTrace cs pods h).
Proof.
  revert h. induction pods as [|pod rest IH]; intros h; [constructor|].
  simpl. apply Forall_app. split; [|apply IH].
  unfold podTrace. destruct (needsDelete pod).
  - destruct (Delete cs _ _ _); by repeat constructor.
  - by repeat constructor.
Qed.

Lemma reconcilerEffect_pass cs h :
  ∃ t, (pass cs h).2 = h ++ t ∧ Forall reconcilerEffect t.
Proof.
  destruct (List cs h "") as [e|pods] eqn:Hl.
  - rewrite (pass_run_fail cs e h Hl). eexists. split; [done|].
    by repeat constructor.
  - rewrite (pass_run_ok cs pods h Hl). eexists. split; [done|].
    apply Forall_cons. split; [done|]. apply reconcilerEffect_podsTrace.
Qed.

Lemma reconcilerEffect_loop cs n f h :
  ∃ t, (loop cs n f h).2 = h ++ t ∧ Forall reconcilerEffect t.
Proof.
  revert f h. induction n as [|n IH]; intros f h.
  - exists []. split; [by rewrite app_nil_r|constructor].
  - simpl. unfold mbind, M_bind.
    set (h0 := if f then h ++ [Sleep 60] else h).
    assert (Hs : (if f then sleep 60 else mret tt) h = (Ret tt, h0))
      by (by destruct f).
    rewrite Hs. destruct (reconcilerEffect_pass cs h0) as (t1 & Hp & Ht1).
    assert (Hh0 : ∃ t0, h0 = h ++ t0 ∧ Forall reconcilerEffect t0).
    { unfold h0. destruct f.
      - exists [Sleep 60]. split; [done|].
        apply Forall_cons. split; [by right|constructor].
      - exists []. split; [by rewrite app_nil_r|constructor]. }
    destruct Hh0 as (t0 & Hh0 & Ht0).
    destruct (pass cs h0) as [[[]|code] h1]; simpl in Hp; subst h1.
    + destruct (IH true (h0 ++ t1)) as (t2 & Hl & Ht2).
      exists (t0 ++ t1 ++ t2). split.
      * rewrite Hl, Hh0. by rewrite <-!app_assoc.
      * by rewrite !Forall_app.
    + exists (t0 ++ t1). split.
      * simpl. rewrite Hh0. by rewrite <-!app_assoc.
      * by rewrite Forall_app.
Qed.

(** X17: what the reconciler never does.  However the cluster answers and
    whether or not the process ends, the reconciler only sleeps 5 or 60
    seconds, logs, lists the pods of all namespaces, creates events, deletes
    pods and increments the deletion counter: it never increments the
    mutation counter, which therefore keeps its value. *)
Theorem X17_reconciler_effects
    (cs : Cluster) (n : nat) (h : History) (ns name : string) :
  (∃ t, (reconciler cs n h).2 = h ++ t ∧ Forall reconcilerEffect t)
  ∧ counter ctrPatches ns name (reconciler cs n h).2
    = counter ctrPatches ns name h.
Proof.
  assert (Ht : ∃ t, (reconciler cs n h).2 = h ++ t
                    ∧ Forall reconcilerEffect t).
  { unfold reconciler, mbind, M_bind, sleep, emit.
    destruct (reconcilerEffect_loop cs n false (h ++ [Sleep 5]))
      as (t & Hl & Ht).
    exists (Sleep 5 :: t). split.
    - rewrite Hl. by rewrite <-app_assoc.
    - apply Forall_cons. split; [by left|done]. }
  split; [exact Ht|].
  destruct Ht as (t & -> & Ht). unfold counter.
  rewrite occurrences_app.
  assert (occurrences (Inc ctrPatches ns name) t = 0) as ->; [|lia].
  induction Ht as [|e t He _ IH]; [done|].
  rewrite occurrences_cons, IH, decide_False; [done|].
  intros ->. simpl in He. discriminate He.
Qed.

Lemma rangeVolumes_ext vols1 vols2 secret :
  vol_Secret <$> vols1 = vol_Secret <$> vols2 →
  rangeVolumes vols1 secret = rangeVolumes vols2 secret.
Proof.
  revert vols2. induction vols1 as [|v1 rest1 IH]; intros [|v2 rest2] Heq;
    try done.
  rewrite !fmap_cons in Heq. injection Heq as Hv Hrest.
  simpl. rewrite Hv, (IH rest2 Hrest). done.
Qed.

(** X18: compliance looks at nothing but the value of the trigger
    annotation and the secret sources of the volumes, in order: two pods
    that agree on these are both compliant or both not, whatever the names
    of their volumes, their other annotations, their containers,
    environment variables and volume mounts. *)
Theorem X18_compliance_reads_secrets_only (pod1 pod2 : Pod) :
  index (pod_Annotations pod1) label = index (pod_Annotations pod2) label →
  vol_Secret <$> elems (pod_Volumes pod1)
  = vol_Secret <$> elems (pod_Volumes pod2) →
  compliant pod1 = compliant pod2.
Proof.
  intros Hann Hvols. unfold compliant. rewrite Hann.
  by apply rangeVolumes_ext.
Qed.

Lemma X18_compliance_reads_secrets_only_witness :
  index (pod_Annotations compliantPod) label
  = index (pod_Annotations renamedPod) label
  ∧ vol_Secret <$> elems (pod_Volumes compliantPod)
    = vol_Secret <$> elems (pod_Volumes renamedPod)
  ∧ elems (pod_Volumes compliantPod) ≠ elems (pod_Volumes renamedPod)
  ∧ compliant compliantPod = compliant renamedPod.
Proof.
  assert (H1 : index (pod_Annotations compliantPod) label
               = index (pod_Annotations renamedPod) label) by reflexivity.
  assert (H2 : vol_Secret <$> elems (pod_Volumes compliantPod)
               = vol_Secret <$> elems (pod_Volumes renamedPod))
    by reflexivity.
  split_and!; [exact H1 | exact H2 | discriminate |].
  exact (X18_compliance_reads_secrets_only compliantPod renamedPod H1 H2).
Defined.

(** X19: handler and reconciler agree on the secret.  A pod that has, among
    its volumes, one whose secret source carries the secret name that the
    patch's volume add writes for this pod is compliant, so the reconciler
    only creates its event for it: no delete call and no counter
    increment. *)
Theorem X19_patched_pod_survives
    (cs : Cluster) (pod : Pod) (vol : Volume) (src : SecretVolumeSource)
    (h : History) :
  vol ∈ elems (pod_Volumes pod) →
  vol_Secret vol = Some src →
  field (Value (volumeAdd (index (pod_Annotations pod) label))) "secret"
  = Some (VMap {[ "secretName" := VStr (SecretName src) ]}) →
  compliant pod = true
  ∧ processPod cs pod h
    = (Ret tt, h ++ [EventsCreate (pod_Namespace pod) (podEvent pod)]).
Proof.
  intros Hin Hsrc Hfield.
  assert (Hname : SecretName src = index (pod_Annotations pod) label).
  { change (field (Value (volumeAdd (index (pod_Annotations pod) label)))
              "secret")
      with (Some (VMap {[ "secretName" :=
                            VStr (index (pod_Annotations pod) label) ]}))
      in Hfield.
    apply (f_equal (λ o : option value,
                      match o with
                      | Some v => field v "secretName"
                      | None => None
                      end)) in Hfield.
    cbn [field] in Hfield. rewrite !lookup_singleton_eq in Hfield.
    by injection Hfield. }
  assert (Hc : compliant pod = true).
  { apply rangeVolumes_true. by exists vol, src. }
  split; [exact Hc|].
  rewrite processPod_run. unfold podTrace.
  by rewrite (proj2 (needsDelete_false pod)) by (by right).
Qed.

Lemma X19_patched_pod_survives_witness :
  {| vol_Name := volumeName;
     vol_Secret := Some {| SecretName := "ca-secret" |} |}
  ∈ elems (pod_Volumes worker1Mutated)
  ∧ compliant worker1Mutated = true
  ∧ processPod (stubbornCluster [worker1Mutated]) worker1Mutated []
    = (Ret tt, [EventsCreate "default" (podEvent worker1Mutated)]).
Proof.
  assert (H1 : {| vol_Name := volumeName;
                  vol_Secret := Some {| SecretName := "ca-secret" |} |}
               ∈ elems (pod_Volumes worker1Mutated)) by (by left).
  split; [exact H1|].
  exact (X19_patched_pod_survives (stubbornCluster [worker1Mutated])
           worker1Mutated _ {| SecretName := "ca-secret" |} []
           H1 eq_refl eq_refl).
Defined.
